(** * Mermaid syntax fixer: a shallow embedding with its properties

    The development follows [webview-ui/src/services/mermaidSyntaxFixer.ts]
    (class [MermaidSyntaxFixer]) and the render effect of the [MermaidBlock]
    component.  JavaScript strings are sequences of code units; they are
    modelled by [string], whose characters stand for the code units: the
    code only ever compares them with those of an ASCII literal.  The
    external collaborators, the mermaid library and the extension that
    answers [fixMermaidSyntax] requests, are parameters of the model. *)

From Equations Require Import Equations.
From Stdlib Require Import List Arith NArith Lia Bool Ascii String DecimalString.
Import ListNotations.
Open Scope string_scope.

Local Abbreviation length := String.length.

(* ===================================================================== *)
(** ** JavaScript strings *)
(* ===================================================================== *)

Module JS.

(** [!!s] for a string: only the empty string is falsy. *)
Definition truthy (s : string) : bool :=
  match s with
  | EmptyString => false
  | String _ _ => true
  end.

(** [v || d] where [v] is a string, [null] or [undefined]. *)
Definition or_else (v : option string) (d : string) : string :=
  match v with
  | Some s => if truthy s then s else d
  | None => d
  end.

(** What is left of [s] after the literal [p], when [s] starts with [p]:
    one attempt of a literal regular expression at the current index. *)
Fixpoint strip_prefix (p s : string) : option string :=
  match p, s with
  | EmptyString, _ => Some s
  | String a p', String b s' =>
      if Ascii.eqb a b then strip_prefix p' s' else None
  | String _ _, EmptyString => None
  end.

(** [s.includes(p)]. *)
Fixpoint includes (p s : string) : bool :=
  match strip_prefix p s with
  | Some _ => true
  | None =>
      match s with
      | EmptyString => false
      | String _ s' => includes p s'
      end
  end.

(** The character [a] does not occur in [s]. *)
Fixpoint lacks (a : ascii) (s : string) : bool :=
  match s with
  | EmptyString => true
  | String b s' => negb (Ascii.eqb a b) && lacks a s'
  end.

(** [`${n}`] for a small natural number. *)
Definition digits (n : nat) : string :=
  DecimalString.NilEmpty.string_of_uint (Nat.to_uint n).

End JS.

(* ===================================================================== *)
(** ** The deterministic pass *)
(* ===================================================================== *)

Definition ARROW_ENTITY : string := "--&gt;".
Definition ARROW : string := "-->".

Lemma length_append (s t : string) : length (s ++ t) = length s + length t.
Proof. induction s; simpl; congruence. Qed.

Lemma append_assoc (s t u : string) : (s ++ t) ++ u = s ++ (t ++ u).
Proof. induction s; simpl; congruence. Qed.

Lemma append_empty_r (s : string) : s ++ "" = s.
Proof. induction s; simpl; congruence. Qed.

Lemma strip_prefix_Some p :
  forall s r, JS.strip_prefix p s = Some r <-> s = p ++ r.
Proof.
  induction p as [|a p IH]; intros s r; simpl.
  - split; congruence.
  - destruct s as [|b s].
    + split; discriminate.
    + destruct (Ascii.eqb_spec a b) as [->|Hab].
      * rewrite IH. split; congruence.
      * split; [discriminate | congruence].
Qed.

Lemma strip_prefix_append p r : JS.strip_prefix p (p ++ r) = Some r.
Proof. apply strip_prefix_Some. reflexivity. Qed.

Lemma strip_arrow_shorter s r :
  JS.strip_prefix ARROW_ENTITY s = Some r -> length r < length s.
Proof.
  intros H. apply strip_prefix_Some in H. subst s.
  rewrite length_append. simpl. lia.
Qed.

Definition inspect {A} (a : A) : {b | a = b} := exist _ a eq_refl.

(** [code.replace(/--&gt;/g, "-->")]: the scan tries the literal at the
    current index; on a match it emits the replacement and resumes after
    the match, otherwise it copies one code unit and moves on. *)
Equations? applyDeterministicFixes (code : string) : string
  by wf (length code) lt :=
applyDeterministicFixes EmptyString := EmptyString;
applyDeterministicFixes (String c rest)
  with inspect (JS.strip_prefix ARROW_ENTITY (String c rest)) := {
  | exist _ (Some after) _ := ARROW ++ applyDeterministicFixes after;
  | exist _ None _ := String c (applyDeterministicFixes rest) }.
Proof.
  exact (strip_arrow_shorter (String c rest) after e).
Qed.

(* ===================================================================== *)
(** ** The validator *)
(* ===================================================================== *)

(** What a call into the mermaid library can do with a text: return, throw
    an [Error] object, or throw some other value. *)
Inductive outcome : Type :=
| Returned
| ThrewError (message : string)
| ThrewOther.

Record MermaidValidationResult : Type := {
  isValid : bool;
  validationError : option string
}.

Definition validate_with (mermaid_parse : string -> outcome)
    (code : string) : MermaidValidationResult :=
  match mermaid_parse code with
  | Returned => {| isValid := true; validationError := None |}
  | ThrewError message =>
      {| isValid := false; validationError := Some message |}
  | ThrewOther =>
      {| isValid := false; validationError := Some "Unknown syntax error" |}
  end.

(* ===================================================================== *)
(** ** The request channel *)
(* ===================================================================== *)

Module Channel.

Definition FIX_TIMEOUT : N := 30000.

(** An inbound [MessageEvent]'s [data]. *)
Record message : Type := {
  type : string;
  requestId : string;
  success : bool;
  fixedCode : option string;
  error : option string
}.

(** What happens on the window while a request is pending. *)
Inductive event : Type :=
| Incoming (m : message)
| TimerElapsed.

Inductive settlement : Type :=
| Resolved (value : option string)
| Rejected (message : string).

(** The calls one invocation of [requestLLMFix] makes, in order. *)
Inductive effect : Type :=
| SetTimeout (ms : N)
| AddEventListener
| PostMessage (requestId code error : string) (attempt maxAttempts : nat)
| ClearTimeout
| RemoveEventListener
| Resolve (value : option string)
| Reject (message : string).

(** One invocation: its identifier, whether its listener is registered,
    whether its timer is armed, its promise, and what it has done. *)
Record call : Type := {
  id : string;
  listening : bool;
  armed : bool;
  promise : option settlement;
  effects : list effect
}.

Definition cleanup (st : call) : call :=
  {| id := id st;
     listening := false;
     armed := false;
     promise := promise st;
     effects := (effects st ++ [ClearTimeout; RemoveEventListener])%list |}.

Definition effect_of (r : settlement) : effect :=
  match r with
  | Resolved v => Resolve v
  | Rejected m => Reject m
  end.

(** [resolve(v)] or [reject(e)]: a promise settles once. *)
Definition settle (r : settlement) (st : call) : call :=
  {| id := id st;
     listening := listening st;
     armed := armed st;
     promise := match promise st with
                | None => Some r
                | Some r0 => Some r0
                end;
     effects := (effects st ++ [effect_of r])%list |}.

Definition messageListener (m : message) (st : call) : call :=
  if (type m =? "mermaidFixResponse") && (requestId m =? id st) then
    let st := cleanup st in
    if success m then settle (Resolved (fixedCode m)) st
    else settle (Rejected (JS.or_else (error m) "LLM fix failed")) st
  else st.

Definition onTimeout (st : call) : call :=
  settle (Rejected "LLM fix request timed out") (cleanup st).

(** The window delivers a message to the listeners that are registered
    and runs a timer's callback only while the timer is armed. *)
Definition dispatch (st : call) (ev : event) : call :=
  match ev with
  | Incoming m => if listening st then messageListener m st else st
  | TimerElapsed => if armed st then onTimeout st else st
  end.

Definition run (evs : list event) (st : call) : call :=
  fold_left dispatch evs st.

(** The executor of the promise. *)
Definition start (requestId code error : string) (attempt maxAttempts : nat)
  : call :=
  {| id := requestId;
     listening := true;
     armed := true;
     promise := None;
     effects := [SetTimeout FIX_TIMEOUT; AddEventListener;
                 PostMessage requestId code error attempt maxAttempts] |}.

Definition is_AddEventListener (e : effect) : bool :=
  match e with AddEventListener => true | _ => false end.
Definition is_SetTimeout (e : effect) : bool :=
  match e with SetTimeout _ => true | _ => false end.
Definition is_RemoveEventListener (e : effect) : bool :=
  match e with RemoveEventListener => true | _ => false end.
Definition is_ClearTimeout (e : effect) : bool :=
  match e with ClearTimeout => true | _ => false end.

Definition count (p : effect -> bool) (st : call) : nat :=
  List.length (filter p (effects st)).

(** What [await] sees: the inbox is delivered, and the deadline passes at
    the latest after it. *)
Definition await (inbox : list event) (st : call) : settlement :=
  match promise (run (inbox ++ [TimerElapsed])%list st) with
  | Some r => r
  | None => Rejected "LLM fix request timed out"
  end.

(** An event that the call ignores: a message of another type or for
    another request. *)
Definition unrelated (requestId : string) (ev : event) : bool :=
  match ev with
  | Incoming m =>
      negb ((type m =? "mermaidFixResponse")
            && (Channel.requestId m =? requestId))
  | TimerElapsed => false
  end.

(** Until the promise settles nothing has been released; once it has, the
    call has released its timer and its listener and then settled, in this
    order, and done nothing else. *)
Definition shape (init : list effect) (st : call) : Prop :=
  match promise st with
  | None => listening st = true /\ armed st = true /\ effects st = init
  | Some r =>
      listening st = false /\ armed st = false /\
      effects st = (init ++ [ClearTimeout; RemoveEventListener; effect_of r])%list
  end.

End Channel.

(* ===================================================================== *)
(** ** The fix loop *)
(* ===================================================================== *)

(** [fixedCode], [error] and [attempts] are optional in the interface;
    every [return] of [fixSyntax] and [autoFixSyntax] sets [fixedCode] and
    [attempts], and [error] on failure only. *)
Record MermaidFixResult : Type := {
  success : bool;
  fixedCode : string;
  error : option string;
  attempts : nat
}.

(** What a fix sequence asks of its collaborators, in order. *)
Inductive io_event : Type :=
| Validated (code : string)
| Requested (code error : string) (attempt : nat).

(** A computation that records its calls to the collaborators. *)
Definition Traced (A : Type) : Type := A * list io_event.

Definition ret {A} (a : A) : Traced A := (a, []).

Definition bind {A B} (m : Traced A) (k : A -> Traced B) : Traced B :=
  let (a, t1) := m in
  let (b, t2) := k a in
  (b, (t1 ++ t2)%list).

Declare Scope traced_scope.
Delimit Scope traced_scope with traced.
Notation "x <- m ;; k" := (bind m (fun x => k))
  (at level 61, m at next level, right associativity) : traced_scope.

(** The collaborators: the parser, the identifier drawn for each request
    and what reaches the window while that request is pending. *)
Record environment : Type := {
  mermaid_parse : string -> outcome;
  draw_id : string -> string -> nat -> string;
  inbox : string -> string -> nat -> list Channel.event
}.

Definition MAX_FIX_ATTEMPTS : nat := 2.

Section Fixer.

Variable env : environment.

Local Open Scope traced_scope.

Definition validateSyntax (code : string) : Traced MermaidValidationResult :=
  (validate_with (mermaid_parse env) code, [Validated code]).

(** How the promise of [requestLLMFix(code, error, attempt)] settles. *)
Definition settlement_of (code error : string) (attempt : nat)
  : Channel.settlement :=
  Channel.await (inbox env code error attempt)
    (Channel.start (draw_id env code error attempt) code error attempt
       MAX_FIX_ATTEMPTS).

Definition requestLLMFix (code error : string) (attempt : nat)
  : Traced Channel.settlement :=
  (settlement_of code error attempt, [Requested code error attempt]).

(** The body of [fixSyntax]'s [for] loop, [remaining] iterations before
    [attempt <= MAX_FIX_ATTEMPTS] fails; every [return] of the source is a
    result here, and falling out of the loop is the last one. *)
Fixpoint fixLoop (remaining attempt : nat)
    (currentCode lastError bestAttempt : string) : Traced MermaidFixResult :=
  match remaining with
  | 0 =>
      ret {| success := false;
             fixedCode := bestAttempt;
             error := Some ("Failed to fix syntax after "
                            ++ JS.digits MAX_FIX_ATTEMPTS
                            ++ " attempts. Last error: " ++ lastError);
             attempts := MAX_FIX_ATTEMPTS |}
  | S remaining' =>
      r <- requestLLMFix currentCode lastError attempt ;;
      match r with
      | Channel.Rejected message =>
          ret {| success := false;
                 fixedCode := bestAttempt;
                 error := Some message;
                 attempts := attempt |}
      | Channel.Resolved value =>
          let noFix :=
            ret {| success := false;
                   fixedCode := bestAttempt;
                   error := Some "LLM failed to provide a fix";
                   attempts := attempt |} in
          match value with
          | None => noFix
          | Some fixedCode =>
              if negb (JS.truthy fixedCode) then noFix
              else
                validation <- validateSyntax fixedCode ;;
                if isValid validation then
                  ret {| success := true;
                         fixedCode := fixedCode;
                         error := None;
                         attempts := attempt |}
                else
                  fixLoop remaining' (S attempt) fixedCode
                    (JS.or_else (validationError validation)
                       "Unknown validation error")
                    fixedCode
          end
      end
  end.

Definition fixSyntax (originalCode error : string) : Traced MermaidFixResult :=
  fixLoop MAX_FIX_ATTEMPTS 1 originalCode error originalCode.

Definition autoFixSyntax (code : string) : Traced MermaidFixResult :=
  let deterministicallyFixedCode := applyDeterministicFixes code in
  validation <- validateSyntax deterministicallyFixedCode ;;
  if isValid validation then
    ret {| success := true;
           fixedCode := deterministicallyFixedCode;
           error := None;
           attempts := 0 |}
  else
    fixSyntax deterministicallyFixedCode
      (JS.or_else (validationError validation) "Unknown syntax error").

End Fixer.

(** *** Reading a result and a trace *)

(** The promise brought no text to adopt: it was rejected, or it resolved
    with [null], [undefined] or the empty string. *)
Definition brings_no_fix (r : Channel.settlement) : bool :=
  match r with
  | Channel.Rejected _ => true
  | Channel.Resolved None => true
  | Channel.Resolved (Some fixedCode) => negb (JS.truthy fixedCode)
  end.

(** The error text [fixSyntax] reports for such a promise. *)
Definition failure_text (r : Channel.settlement) : string :=
  match r with
  | Channel.Rejected message => message
  | Channel.Resolved _ => "LLM failed to provide a fix"
  end.

(** The text of the last [validateSyntax] call of a trace, [d] if none. *)
Fixpoint last_validated (t : list io_event) (d : option string)
  : option string :=
  match t with
  | [] => d
  | Validated code :: t' => last_validated t' (Some code)
  | Requested _ _ _ :: t' => last_validated t' d
  end.

Definition is_Requested (e : io_event) : bool :=
  match e with Requested _ _ _ => true | Validated _ => false end.

Definition requests (t : list io_event) : nat :=
  List.length (filter is_Requested t).

(* ===================================================================== *)
(** ** The [MermaidBlock] component *)
(* ===================================================================== *)

Module MermaidBlock.

(** [fixResult.error]; the component has an [error] state of its own. *)
Local Abbreviation fixError := error.

(** The component's prop and state, the scheduler's flag, and three
    counters kept for the proofs: how often the render effect has called
    [autoFixSyntax], how many requests those calls have sent, and how
    often the [code] prop has changed. *)
Record state : Type := {
  code : string;
  isLoading : bool;
  error : option string;
  isFixing : bool;
  fixAttempts : nat;
  currentCode : string;
  hasAutoFixed : bool;
  scheduled : bool;
  autoFixCalls : nat;
  autoRequests : nat;
  sourceChanges : nat
}.

Inductive event : Type :=
| DebounceElapsed (env : environment) (mermaid_render : string -> outcome)
| ClickFix (env : environment)
| SetCode (newCode : string).

Definition setError (e : option string) (st : state) : state :=
  {| code := code st; isLoading := isLoading st; error := e;
     isFixing := isFixing st; fixAttempts := fixAttempts st;
     currentCode := currentCode st; hasAutoFixed := hasAutoFixed st;
     scheduled := scheduled st; autoFixCalls := autoFixCalls st;
     autoRequests := autoRequests st; sourceChanges := sourceChanges st |}.

Definition setIsLoading (b : bool) (st : state) : state :=
  {| code := code st; isLoading := b; error := error st;
     isFixing := isFixing st; fixAttempts := fixAttempts st;
     currentCode := currentCode st; hasAutoFixed := hasAutoFixed st;
     scheduled := scheduled st; autoFixCalls := autoFixCalls st;
     autoRequests := autoRequests st; sourceChanges := sourceChanges st |}.

Definition setIsFixing (b : bool) (st : state) : state :=
  {| code := code st; isLoading := isLoading st; error := error st;
     isFixing := b; fixAttempts := fixAttempts st;
     currentCode := currentCode st; hasAutoFixed := hasAutoFixed st;
     scheduled := scheduled st; autoFixCalls := autoFixCalls st;
     autoRequests := autoRequests st; sourceChanges := sourceChanges st |}.

Definition setFixAttempts (n : nat) (st : state) : state :=
  {| code := code st; isLoading := isLoading st; error := error st;
     isFixing := isFixing st; fixAttempts := n;
     currentCode := currentCode st; hasAutoFixed := hasAutoFixed st;
     scheduled := scheduled st; autoFixCalls := autoFixCalls st;
     autoRequests := autoRequests st; sourceChanges := sourceChanges st |}.

Definition setHasAutoFixed (b : bool) (st : state) : state :=
  {| code := code st; isLoading := isLoading st; error := error st;
     isFixing := isFixing st; fixAttempts := fixAttempts st;
     currentCode := currentCode st; hasAutoFixed := b;
     scheduled := scheduled st; autoFixCalls := autoFixCalls st;
     autoRequests := autoRequests st; sourceChanges := sourceChanges st |}.

(** Modelled from the spec: [useDebounceEffect] (the hook is not among
    the sources; the component passes it [[currentCode]] as its
    dependencies).  A change of the dependency schedules one debounced
    render cycle; a change within the quiet period restarts the timer
    rather than enqueuing a second cycle; nothing is scheduled while the
    dependency keeps its value. *)
Definition useDebounceEffect (before after : string) (scheduled : bool)
  : bool :=
  if after =? before then scheduled else true.

Definition setCurrentCode (c : string) (st : state) : state :=
  {| code := code st; isLoading := isLoading st; error := error st;
     isFixing := isFixing st; fixAttempts := fixAttempts st;
     currentCode := c; hasAutoFixed := hasAutoFixed st;
     scheduled := useDebounceEffect (currentCode st) c (scheduled st);
     autoFixCalls := autoFixCalls st;
     autoRequests := autoRequests st; sourceChanges := sourceChanges st |}.

(** The debounce timer has elapsed: the scheduled cycle starts. *)
Definition unschedule (st : state) : state :=
  {| code := code st; isLoading := isLoading st; error := error st;
     isFixing := isFixing st; fixAttempts := fixAttempts st;
     currentCode := currentCode st; hasAutoFixed := hasAutoFixed st;
     scheduled := false; autoFixCalls := autoFixCalls st;
     autoRequests := autoRequests st; sourceChanges := sourceChanges st |}.

(** The render effect is about to call [autoFixSyntax]. *)
Definition countAutoFix (t : list io_event) (st : state) : state :=
  {| code := code st; isLoading := isLoading st; error := error st;
     isFixing := isFixing st; fixAttempts := fixAttempts st;
     currentCode := currentCode st; hasAutoFixed := hasAutoFixed st;
     scheduled := scheduled st; autoFixCalls := S (autoFixCalls st);
     autoRequests := autoRequests st + requests t;
     sourceChanges := sourceChanges st |}.

(** The effect on [[code]]. *)
Definition onCodeChange (newCode : string) (st : state) : state :=
  let st :=
    {| code := newCode; isLoading := isLoading st; error := error st;
       isFixing := isFixing st; fixAttempts := fixAttempts st;
       currentCode := currentCode st; hasAutoFixed := hasAutoFixed st;
       scheduled := scheduled st; autoFixCalls := autoFixCalls st;
       autoRequests := autoRequests st;
       sourceChanges := S (sourceChanges st) |} in
  setFixAttempts 0
    (setHasAutoFixed false
       (setCurrentCode newCode (setError None (setIsLoading true st)))).

(** The first render: [useState] defaults, then both effects. *)
Definition mount (c : string) : state :=
  {| code := c; isLoading := true; error := None; isFixing := false;
     fixAttempts := 0; currentCode := c; hasAutoFixed := false;
     scheduled := true; autoFixCalls := 0; autoRequests := 0;
     sourceChanges := 0 |}.

Definition errorMessage_of (o : outcome) : string :=
  match o with
  | ThrewError message => message
  | _ => "Failed to render Mermaid diagram"
  end.

(** [renderMermaid], on the state of the render that scheduled it; the
    outer [finally] reads that render's [isFixing]. *)
Definition renderMermaid (env : environment)
    (mermaid_render : string -> outcome) (st0 : state) : state :=
  let finally (st : state) :=
    if negb (isFixing st0) then setIsLoading false st else st in
  let attempt :=
    match mermaid_parse env (currentCode st0) with
    | Returned => mermaid_render (currentCode st0)
    | thrown => thrown
    end in
  match attempt with
  | Returned => finally (setError None st0)
  | thrown =>
      let errorMessage := errorMessage_of thrown in
      if negb (hasAutoFixed st0) && (currentCode st0 =? code st0)
         && negb (isFixing st0) then
        let st := setIsFixing true st0 in
        let (fixResult, trace) := autoFixSyntax env (currentCode st0) in
        let st := countAutoFix trace st in
        if success fixResult && JS.truthy (fixedCode fixResult)
           && negb (fixedCode fixResult =? currentCode st0) then
          finally
            (setIsFixing false
               (setFixAttempts (attempts fixResult)
                  (setHasAutoFixed true
                     (setCurrentCode (fixedCode fixResult) st))))
        else
          finally (setIsFixing false (setError (Some errorMessage) st))
      else
        finally (setError (Some errorMessage) st0)
  end.

Definition handleManualFix (env : environment) (st0 : state) : state :=
  if isFixing st0 then st0
  else
    let st := setError None (setIsFixing true st0) in
    let (fixResult, _) := autoFixSyntax env (code st0) in
    if success fixResult && JS.truthy (fixedCode fixResult) then
      setIsFixing false
        (setFixAttempts (attempts fixResult)
           (setHasAutoFixed true
              (setCurrentCode (fixedCode fixResult) st)))
    else
      setIsFixing false
        (setError
           (Some (JS.or_else (fixError fixResult)
                    "Failed to fix Mermaid syntax")) st).

Definition step (st : state) (ev : event) : state :=
  match ev with
  | DebounceElapsed env mermaid_render =>
      if scheduled st then renderMermaid env mermaid_render (unschedule st)
      else st
  | ClickFix env => handleManualFix env st
  | SetCode newCode =>
      if newCode =? code st then st else onCodeChange newCode st
  end.

Definition run (evs : list event) (st : state) : state :=
  fold_left step evs st.

Definition keeps_source (c : string) (ev : event) : Prop :=
  match ev with
  | SetCode newCode => newCode = c
  | _ => True
  end.

(** While the authored source stays [c]: the render effect has not called
    [autoFixSyntax] yet, or it has called it once and either no cycle is
    scheduled or the fix has been adopted. *)
Definition guarded (c : string) (st : state) : Prop :=
  code st = c /\ sourceChanges st = 0 /\ isFixing st = false /\
  ((autoFixCalls st = 0 /\ autoRequests st = 0) \/
   (autoFixCalls st = 1 /\ autoRequests st <= MAX_FIX_ATTEMPTS /\
    (scheduled st = false \/ hasAutoFixed st = true))).

End MermaidBlock.

(* ===================================================================== *)
(** ** Scripted collaborators for concrete runs *)
(* ===================================================================== *)

Module Scenario.

(** A parser that accepts exactly the text [valid]. *)
Definition accepts (valid : string) (code : string) : outcome :=
  if code =? valid then Returned else ThrewError "Parse error".

(** A parser that rejects every text. *)
Definition rejects (code : string) : outcome := ThrewError "Parse error".

Definition tag (attempt : nat) : string := "mermaid-fix-" ++ JS.digits attempt.

(** The extension's [mermaidFixResponse] to the request of [attempt]. *)
Definition response (attempt : nat) (ok : bool) (fixed err : option string)
  : Channel.event :=
  Channel.Incoming
    {| Channel.type := "mermaidFixResponse";
       Channel.requestId := tag attempt;
       Channel.success := ok;
       Channel.fixedCode := fixed;
       Channel.error := err |}.

Definition scripted (parse : string -> outcome)
    (script : nat -> list Channel.event) : environment :=
  {| mermaid_parse := parse;
     draw_id := fun _ _ attempt => tag attempt;
     inbox := fun _ _ attempt => script attempt |}.

(** The assistant answers every request with the same text. *)
Definition always (fixed : string) (attempt : nat) : list Channel.event :=
  [response attempt true (Some fixed) None].

(** The assistant answers with [success: true] and no text. *)
Definition no_fix (attempt : nat) : list Channel.event :=
  [response attempt true None None].

(** The assistant never answers. *)
Definition silent (attempt : nat) : list Channel.event := [].

(** The assistant answers the first request with [fixed] and the later
    ones with no text. *)
Definition once (fixed : string) (attempt : nat) : list Channel.event :=
  if Nat.eqb attempt 1 then always fixed attempt else no_fix attempt.

(** A response to some other request arrives first, then a response with
    [success: true] and the empty string. *)
Definition empty_fix (attempt : nat) : list Channel.event :=
  [response (attempt + 7) true (Some "x") None;
   response attempt true (Some "") None].

End Scenario.

(* ===================================================================== *)
(** ** Other versions of [autoFixSyntax] *)
(* ===================================================================== *)

(** The version with the loop inlined in [autoFixSyntax]: a [for] loop
    that applies the deterministic pass to every answer of the assistant
    before validating it.  Its [requestLLMFix] and [validateSyntax] are
    those of the version above. *)
Module InlineLoop.

Section Fixer.

Variable env : environment.

Local Open Scope traced_scope.

Fixpoint fixLoop (remaining attempt : nat)
    (currentCode lastError bestAttempt : string) : Traced MermaidFixResult :=
  match remaining with
  | 0 =>
      ret {| success := false;
             fixedCode := bestAttempt;
             error := Some ("Failed to fix syntax after "
                            ++ JS.digits MAX_FIX_ATTEMPTS
                            ++ " attempts. Last error: " ++ lastError);
             attempts := MAX_FIX_ATTEMPTS |}
  | S remaining' =>
      r <- requestLLMFix env currentCode lastError attempt ;;
      match r with
      | Channel.Rejected message =>
          ret {| success := false;
                 fixedCode := bestAttempt;
                 error := Some message;
                 attempts := attempt |}
      | Channel.Resolved value =>
          let noFix :=
            ret {| success := false;
                   fixedCode := bestAttempt;
                   error := Some "LLM failed to provide a fix";
                   attempts := attempt |} in
          match value with
          | None => noFix
          | Some fixedCode =>
              if negb (JS.truthy fixedCode) then noFix
              else
                let currentCode := applyDeterministicFixes fixedCode in
                let bestAttempt := currentCode in
                validation <- validateSyntax env currentCode ;;
                if isValid validation then
                  ret {| success := true;
                         fixedCode := currentCode;
                         error := None;
                         attempts := attempt |}
                else
                  fixLoop remaining' (S attempt) currentCode
                    (JS.or_else (validationError validation)
                       "Unknown validation error")
                    bestAttempt
          end
      end
  end.

Definition autoFixSyntax (code : string) : Traced MermaidFixResult :=
  let currentCode := applyDeterministicFixes code in
  let bestAttempt := currentCode in
  validation <- validateSyntax env currentCode ;;
  if isValid validation then
    ret {| success := true;
           fixedCode := currentCode;
           error := None;
           attempts := 0 |}
  else
    fixLoop MAX_FIX_ATTEMPTS 1 currentCode
      (JS.or_else (validationError validation) "Unknown syntax error")
      bestAttempt.

End Fixer.

End InlineLoop.

(** The version with a [while (true)] loop that starts and ends with the
    deterministic pass.  [remaining] is [MAX_FIX_ATTEMPTS - llmAttempts]:
    the loop breaks when it is 0. *)
Module WhileLoop.

Section Fixer.

Variable env : environment.

Local Open Scope traced_scope.

Fixpoint loop (remaining llmAttempts : nat) (currentCode : string)
  : Traced MermaidFixResult :=
  let currentCode := applyDeterministicFixes currentCode in
  let bestAttempt := currentCode in
  validation <- validateSyntax env currentCode ;;
  if isValid validation then
    ret {| success := true;
           fixedCode := currentCode;
           error := None;
           attempts := llmAttempts |}
  else
    let lastError :=
      JS.or_else (validationError validation) "Unknown syntax error" in
    match remaining with
    | 0 =>
        ret {| success := false;
               fixedCode := bestAttempt;
               error := Some ("Failed to fix syntax after "
                              ++ JS.digits MAX_FIX_ATTEMPTS
                              ++ " attempts. Last error: " ++ lastError);
               attempts := MAX_FIX_ATTEMPTS |}
    | S remaining' =>
        let llmAttempts := S llmAttempts in
        r <- requestLLMFix env currentCode lastError llmAttempts ;;
        match r with
        | Channel.Rejected message =>
            ret {| success := false;
                   fixedCode := bestAttempt;
                   error := Some message;
                   attempts := llmAttempts |}
        | Channel.Resolved value =>
            let noFix :=
              ret {| success := false;
                     fixedCode := bestAttempt;
                     error := Some "LLM failed to provide a fix";
                     attempts := llmAttempts |} in
            match value with
            | None => noFix
            | Some fixedCode =>
                if negb (JS.truthy fixedCode) then noFix
                else loop remaining' llmAttempts fixedCode
            end
        end
    end.

Definition autoFixSyntax (code : string) : Traced MermaidFixResult :=
  loop MAX_FIX_ATTEMPTS 0 code.

End Fixer.

End WhileLoop.

(** The version whose [requestLLMFix(code, error)] never rejects: its
    promise resolves with [{ fixedCode }] or with [{ requestError }], and
    [autoFixSyntax] takes whatever [fixedCode] holds as the next text. *)
Module TaggedReply.

(** What the promise resolves with. *)
Inductive reply : Type :=
| FixedCode (value : option string)
| RequestError (message : string).

(** What [autoFixSyntax] comes to: it returns a result, or
    [applyDeterministicFixes] is called on a [fixedCode] that is [null] or
    [undefined] and the [TypeError] of [code.replace] rejects its
    promise. *)
Inductive completion : Type :=
| Fulfilled (result : MermaidFixResult)
| ThrewTypeError.

(** One invocation of [requestLLMFix]: the record of [Channel.call] with
    this version's promise. *)
Record call : Type := {
  id : string;
  listening : bool;
  armed : bool;
  promise : option reply
}.

Definition cleanup (st : call) : call :=
  {| id := id st; listening := false; armed := false;
     promise := promise st |}.

Definition resolve (r : reply) (st : call) : call :=
  {| id := id st; listening := listening st; armed := armed st;
     promise := match promise st with
                | None => Some r
                | Some r0 => Some r0
                end |}.

Definition messageListener (m : Channel.message) (st : call) : call :=
  if (Channel.type m =? "mermaidFixResponse")
     && (Channel.requestId m =? id st) then
    let st := cleanup st in
    if Channel.success m then resolve (FixedCode (Channel.fixedCode m)) st
    else resolve (RequestError
                    (JS.or_else (Channel.error m) "LLM fix failed")) st
  else st.

Definition onTimeout (st : call) : call :=
  resolve (RequestError "LLM fix request timed out") (cleanup st).

Definition dispatch (st : call) (ev : Channel.event) : call :=
  match ev with
  | Channel.Incoming m => if listening st then messageListener m st else st
  | Channel.TimerElapsed => if armed st then onTimeout st else st
  end.

Definition run (evs : list Channel.event) (st : call) : call :=
  fold_left dispatch evs st.

Definition start (requestId : string) : call :=
  {| id := requestId; listening := true; armed := true; promise := None |}.

Definition await (inbox : list Channel.event) (st : call) : reply :=
  match promise (run (inbox ++ [Channel.TimerElapsed])%list st) with
  | Some r => r
  | None => RequestError "LLM fix request timed out"
  end.

Section Fixer.

Variable env : environment.

Local Open Scope traced_scope.

(** The request carries no attempt number in this version; the
    collaborators are asked for the identifier and the inbox of the
    [ordinal]-th request of the sequence. *)
Definition reply_of (code error : string) (ordinal : nat) : reply :=
  await (inbox env code error ordinal)
    (start (draw_id env code error ordinal)).

Definition requestLLMFix (code error : string) (ordinal : nat)
  : Traced reply :=
  (reply_of code error ordinal, [Requested code error ordinal]).

(** The [while (true)] loop; [remaining] is
    [MAX_FIX_ATTEMPTS - llmAttempts], and [currentCode] is [None] when it
    was set to a [fixedCode] that is [null] or [undefined]. *)
Fixpoint loop (remaining llmAttempts : nat) (currentCode : option string)
  : Traced completion :=
  match currentCode with
  | None => ret ThrewTypeError
  | Some raw =>
      let currentCode := applyDeterministicFixes raw in
      validation <- validateSyntax env currentCode ;;
      if isValid validation then
        ret (Fulfilled {| success := true;
                          fixedCode := currentCode;
                          error := None;
                          attempts := llmAttempts |})
      else
        let lastError :=
          JS.or_else (validationError validation) "Unknown syntax error" in
        match remaining with
        | 0 =>
            ret (Fulfilled
                   {| success := false;
                      fixedCode := currentCode;
                      error := Some ("Failed to fix syntax after "
                                     ++ JS.digits MAX_FIX_ATTEMPTS
                                     ++ " attempts. Last error: "
                                     ++ lastError);
                      attempts := llmAttempts |})
        | S remaining' =>
            let llmAttempts := S llmAttempts in
            result <- requestLLMFix currentCode lastError llmAttempts ;;
            match result with
            | RequestError message =>
                ret (Fulfilled {| success := false;
                                  fixedCode := currentCode;
                                  error := Some message;
                                  attempts := llmAttempts |})
            | FixedCode value => loop remaining' llmAttempts value
            end
        end
  end.

Definition autoFixSyntax (code : string) : Traced completion :=
  loop MAX_FIX_ATTEMPTS 0 (Some code).

End Fixer.

End TaggedReply.

(** The earliest version: [applyManualFixes] is the same replacement,
    [validateSyntax] applies it before parsing, and [fixSyntax] reports a
    [fixedCode] on success only. *)
Module Legacy.

Record MermaidFixResult : Type := {
  success : bool;
  fixedCode : option string;
  error : option string;
  attempts : nat
}.

Definition applyManualFixes (code : string) : string :=
  applyDeterministicFixes code.

Section Fixer.

Variable env : environment.

Local Open Scope traced_scope.

Definition validateSyntax (code : string) : Traced MermaidValidationResult :=
  let fixedCode := applyManualFixes code in
  (validate_with (mermaid_parse env) fixedCode, [Validated code]).

Fixpoint fixLoop (remaining attempt : nat) (currentCode lastError : string)
  : Traced MermaidFixResult :=
  match remaining with
  | 0 =>
      ret {| success := false;
             fixedCode := None;
             error := Some ("Failed to fix syntax after "
                            ++ JS.digits MAX_FIX_ATTEMPTS
                            ++ " attempts. Last error: " ++ lastError);
             attempts := MAX_FIX_ATTEMPTS |}
  | S remaining' =>
      r <- requestLLMFix env currentCode lastError attempt ;;
      match r with
      | Channel.Rejected message =>
          ret {| success := false;
                 fixedCode := None;
                 error := Some message;
                 attempts := attempt |}
      | Channel.Resolved value =>
          let noFix :=
            ret {| success := false;
                   fixedCode := None;
                   error := Some "LLM failed to provide a fix";
                   attempts := attempt |} in
          match value with
          | None => noFix
          | Some fixedCode =>
              if negb (JS.truthy fixedCode) then noFix
              else
                validation <- validateSyntax fixedCode ;;
                if isValid validation then
                  ret {| success := true;
                         fixedCode := Some fixedCode;
                         error := None;
                         attempts := attempt |}
                else
                  fixLoop remaining' (S attempt) fixedCode
                    (JS.or_else (validationError validation)
                       "Unknown validation error")
          end
      end
  end.

Definition fixSyntax (originalCode error : string) : Traced MermaidFixResult :=
  fixLoop MAX_FIX_ATTEMPTS 1 originalCode error.

Definition autoFixSyntax (code : string) : Traced MermaidFixResult :=
  let manuallyFixedCode := applyManualFixes code in
  validation <- validateSyntax manuallyFixedCode ;;
  if isValid validation then
    ret {| success := true;
           fixedCode := Some manuallyFixedCode;
           error := None;
           attempts := 0 |}
  else
    fixSyntax manuallyFixedCode
      (JS.or_else (validationError validation) "Unknown syntax error").

End Fixer.

End Legacy.

(** What a trace validated and what it sent, in order. *)
Fixpoint texts (t : list io_event) : list string :=
  match t with
  | [] => []
  | Validated code :: t' => code :: texts t'
  | Requested code _ _ :: t' => code :: texts t'
  end.

(** *** Vocabulary of the further properties *)

(** A text the deterministic pass leaves as it is. *)
Definition normalized (c : string) : Prop := applyDeterministicFixes c = c.

(** The outcome of the [try] block of [renderMermaid]: [mermaid.parse],
    then [mermaid.render]. *)
Definition render_outcome (env : environment)
    (mermaid_render : string -> outcome) (code : string) : outcome :=
  match mermaid_parse env code with
  | Returned => mermaid_render code
  | thrown => thrown
  end.

(** What the error panel relies on: without an adopted fix the working
    copy is the authored source and no attempts are shown; the attempts
    shown never exceed the budget. *)
Definition consistent (st : MermaidBlock.state) : Prop :=
  (MermaidBlock.hasAutoFixed st = false ->
   MermaidBlock.currentCode st = MermaidBlock.code st /\
   MermaidBlock.fixAttempts st = 0) /\
  MermaidBlock.fixAttempts st <= MAX_FIX_ATTEMPTS.

(** What a returned result satisfies. *)
Definition TaggedReply_sound (env : environment) (k n : nat)
    (dflt : option string) (c : TaggedReply.completion)
    (t : list io_event) : Prop :=
  match c with
  | TaggedReply.Fulfilled r =>
      normalized (fixedCode r) /\
      last_validated t dflt = Some (fixedCode r) /\
      attempts r = k + requests t /\
      requests t <= n /\
      (success r = true -> mermaid_parse env (fixedCode r) = Returned)
  | TaggedReply.ThrewTypeError => True
  end.

(** What a result of the earliest version satisfies after the trace [t],
    [d] being the last text validated before it. *)
Definition Legacy_sound (env : environment) (d : option string)
    (r : Legacy.MermaidFixResult) (t : list io_event) : Prop :=
  (Legacy.success r = true ->
   exists f,
     Legacy.fixedCode r = Some f /\
     last_validated t d = Some f /\
     mermaid_parse env (Legacy.applyManualFixes f) = Returned /\
     Legacy.error r = None) /\
  (Legacy.success r = false ->
   Legacy.fixedCode r = None /\ Legacy.error r <> None).

(* ===================================================================== *)
(** ** Facts about the deterministic pass *)
(* ===================================================================== *)

(** The unfolding equations of the scan. *)
Lemma applyDeterministicFixes_step c r :
  applyDeterministicFixes (String c r) =
  match JS.strip_prefix ARROW_ENTITY (String c r) with
  | Some after => ARROW ++ applyDeterministicFixes after
  | None => String c (applyDeterministicFixes r)
  end.
Proof.
  rewrite applyDeterministicFixes_equation_2.
  generalize (inspect (JS.strip_prefix ARROW_ENTITY (String c r))).
  intros [o Ho]. destruct o as [after|].
  - rewrite applyDeterministicFixes_clause_2_equation_1. now rewrite Ho.
  - rewrite applyDeterministicFixes_clause_2_equation_2. now rewrite Ho.
Qed.

Lemma applyDeterministicFixes_hit r :
  applyDeterministicFixes (ARROW_ENTITY ++ r) = ARROW ++ applyDeterministicFixes r.
Proof.
  change (ARROW_ENTITY ++ r) with (String "-" ("-&gt;" ++ r)).
  rewrite applyDeterministicFixes_step.
  change (String "-" ("-&gt;" ++ r)) with (ARROW_ENTITY ++ r).
  now rewrite strip_prefix_append.
Qed.

Lemma applyDeterministicFixes_miss c r :
  JS.strip_prefix ARROW_ENTITY (String c r) = None ->
  applyDeterministicFixes (String c r) = String c (applyDeterministicFixes r).
Proof.
  intros Hnone. rewrite applyDeterministicFixes_step. now rewrite Hnone.
Qed.

(** Every string is empty, starts with the entity, or starts with a code
    unit at which the literal does not match. *)
Lemma scan_cases (s : string) :
  s = "" \/
  (exists r, s = ARROW_ENTITY ++ r) \/
  (exists c r, s = String c r /\ JS.strip_prefix ARROW_ENTITY s = None).
Proof.
  destruct s as [|c r]; [now left | right].
  destruct (JS.strip_prefix ARROW_ENTITY (String c r)) as [after|] eqn:E.
  - left. exists after. now apply strip_prefix_Some.
  - right. now exists c, r.
Qed.

Example applyDeterministicFixes_arrow :
  applyDeterministicFixes "A --&gt; B" = "A --> B".
Proof. reflexivity. Qed.

Example applyDeterministicFixes_lines :
  applyDeterministicFixes "--&gt; start
middle --&gt; middle
end --&gt;" = "--> start
middle --> middle
end -->".
Proof. reflexivity. Qed.

Example applyDeterministicFixes_other_entities :
  applyDeterministicFixes "A --&gt; B &amp; C &lt; D" = "A --> B &amp; C &lt; D".
Proof. reflexivity. Qed.

Example applyDeterministicFixes_whitespace :
  applyDeterministicFixes "A   --&gt;   B" = "A   -->   B".
Proof. reflexivity. Qed.

(** Induction along the scan: the empty string, a match of the entity, a
    code unit copied where the literal does not match. *)
Lemma scan_ind (Q : string -> Prop) :
  Q "" ->
  (forall r, Q r -> Q (ARROW_ENTITY ++ r)) ->
  (forall c r, JS.strip_prefix ARROW_ENTITY (String c r) = None ->
               Q r -> Q (String c r)) ->
  forall s, Q s.
Proof.
  intros Hnil Hhit Hmiss s.
  remember (length s) as n eqn:Hn. revert s Hn.
  induction n as [n IH] using lt_wf_ind. intros s Hn.
  destruct (scan_cases s) as [-> | [[r ->] | (c & r & -> & Hnone)]].
  - exact Hnil.
  - apply Hhit. apply (IH (length r)); [|reflexivity].
    subst n. rewrite length_append. simpl. lia.
  - apply Hmiss; [exact Hnone|]. apply (IH (length r)); [|reflexivity].
    subst n. simpl. lia.
Qed.

(** A prefix of the output that holds no [>] is a prefix of the input:
    the pass only ever writes a new [>]. *)
Lemma applyDeterministicFixes_prefix_reflect w :
  JS.lacks ">" w = true ->
  forall y z, applyDeterministicFixes y = w ++ z -> exists z', y = w ++ z'.
Proof.
  induction w as [|a w IH]; intros Hw y z H.
  - now exists y.
  - simpl in Hw. apply andb_true_iff in Hw as [Ha Hw].
    destruct (scan_cases y) as [-> | [[r ->] | (c & r & -> & Hnone)]].
    + rewrite applyDeterministicFixes_equation_1 in H. discriminate.
    + rewrite applyDeterministicFixes_hit in H. simpl in H.
      injection H as <- H.
      destruct w as [|b w]; [now exists ("-&gt;" ++ r)|].
      simpl in H. injection H as <- H.
      destruct w as [|e w]; [now exists ("&gt;" ++ r)|].
      simpl in H. injection H as <- H.
      simpl in Hw. discriminate.
    + rewrite (applyDeterministicFixes_miss _ _ Hnone) in H.
      simpl in H. injection H as <- H.
      destruct (IH Hw r z H) as [z' ->]. now exists z'.
Qed.

(** Where the literal does not match the input, it does not match once the
    rest of the input has been rewritten either. *)
Lemma miss_preserved c r :
  JS.strip_prefix ARROW_ENTITY (String c r) = None ->
  JS.strip_prefix ARROW_ENTITY (String c (applyDeterministicFixes r)) = None.
Proof.
  intros Hnone.
  destruct (JS.strip_prefix ARROW_ENTITY (String c (applyDeterministicFixes r)))
    as [s|] eqn:E; [exfalso | reflexivity].
  apply strip_prefix_Some in E. simpl in E. injection E as -> E.
  destruct (applyDeterministicFixes_prefix_reflect "-&gt;" eq_refl r s E)
    as [z' ->].
  change (String "-" ("-&gt;" ++ z')) with (ARROW_ENTITY ++ z') in Hnone.
  rewrite strip_prefix_append in Hnone. discriminate.
Qed.

Lemma applyDeterministicFixes_idempotent x :
  applyDeterministicFixes (applyDeterministicFixes x) = applyDeterministicFixes x.
Proof.
  induction x as [|r IH|c r Hnone IH] using scan_ind.
  - reflexivity.
  - rewrite applyDeterministicFixes_hit. unfold ARROW. simpl.
    rewrite !applyDeterministicFixes_miss by reflexivity.
    now rewrite IH.
  - rewrite (applyDeterministicFixes_miss _ _ Hnone).
    rewrite (applyDeterministicFixes_miss _ _ (miss_preserved _ _ Hnone)).
    now rewrite IH.
Qed.

Lemma applyDeterministicFixes_noop x :
  JS.includes ARROW_ENTITY x = false -> applyDeterministicFixes x = x.
Proof.
  induction x as [|c r IH]; intros H; [reflexivity|].
  cbn [JS.includes] in H.
  destruct (JS.strip_prefix ARROW_ENTITY (String c r)) eqn:E; [discriminate|].
  rewrite (applyDeterministicFixes_miss _ _ E). now rewrite IH.
Qed.

Lemma applyDeterministicFixes_nonempty x :
  x <> "" -> applyDeterministicFixes x <> "".
Proof.
  intros Hx.
  destruct (scan_cases x) as [-> | [[r ->] | (c & r & -> & Hnone)]].
  - congruence.
  - rewrite applyDeterministicFixes_hit. discriminate.
  - rewrite (applyDeterministicFixes_miss _ _ Hnone). discriminate.
Qed.

(** *** Segments between occurrences of the entity *)

(** [String.concat sep segs] is [segs.join(sep)]. *)
Lemma concat_head sep s l :
  String.concat sep (s :: l) =
  s ++ match l with [] => "" | _ :: _ => sep ++ String.concat sep l end.
Proof. destruct l; simpl; [now rewrite append_empty_r | reflexivity]. Qed.

Lemma concat_cons_char sep c s l :
  String.concat sep (String c s :: l) = String c (String.concat sep (s :: l)).
Proof. destruct l; reflexivity. Qed.

(** The entity has no border: an occurrence cannot start inside a segment
    and end inside the separator that follows it. *)
Lemma no_straddle c s t :
  JS.strip_prefix ARROW_ENTITY (String c s) = None ->
  JS.strip_prefix ARROW_ENTITY (String c (s ++ ARROW_ENTITY ++ t)) = None.
Proof.
  intros Hnone.
  destruct (JS.strip_prefix ARROW_ENTITY (String c (s ++ ARROW_ENTITY ++ t)))
    as [z|] eqn:E; [exfalso | reflexivity].
  apply strip_prefix_Some in E. simpl in E. injection E as -> E.
  do 5 (destruct s as [|? s]; simpl in E; [discriminate E | injection E as -> E]).
  simpl in Hnone. discriminate.
Qed.

Lemma applyDeterministicFixes_segment s :
  JS.includes ARROW_ENTITY s = false ->
  forall tl, tl = "" \/ (exists t, tl = ARROW_ENTITY ++ t) ->
  applyDeterministicFixes (s ++ tl) = s ++ applyDeterministicFixes tl.
Proof.
  induction s as [|c s IH]; intros Hs tl Htl; [reflexivity|].
  cbn [JS.includes] in Hs.
  destruct (JS.strip_prefix ARROW_ENTITY (String c s)) eqn:E; [discriminate|].
  simpl. rewrite applyDeterministicFixes_miss.
  - now rewrite IH.
  - destruct Htl as [-> | [t ->]].
    + now rewrite append_empty_r.
    + now apply no_straddle.
Qed.

Lemma applyDeterministicFixes_join segs :
  Forall (fun s => JS.includes ARROW_ENTITY s = false) segs ->
  applyDeterministicFixes (String.concat ARROW_ENTITY segs) =
  String.concat ARROW segs.
Proof.
  induction 1 as [|s l Hs Hl IH]; [reflexivity|].
  rewrite !concat_head.
  rewrite applyDeterministicFixes_segment; [|exact Hs|].
  - destruct l as [|s' l']; [reflexivity|].
    rewrite applyDeterministicFixes_hit. now rewrite IH.
  - destruct l; [now left | right; eauto].
Qed.

(** Every input splits into segments that hold no occurrence of the
    entity, separated by its occurrences. *)
Lemma segments_exist code :
  exists segs,
    Forall (fun s => JS.includes ARROW_ENTITY s = false) segs /\
    segs <> [] /\
    code = String.concat ARROW_ENTITY segs.
Proof.
  induction code as [|r IH|c r Hnone IH] using scan_ind.
  - exists [""]. repeat split; [now constructor | discriminate].
  - destruct IH as (segs & Hall & Hne & ->).
    exists ("" :: segs). repeat split; [now constructor | discriminate |].
    destruct segs; [congruence | reflexivity].
  - destruct IH as (segs & Hall & Hne & ->).
    destruct segs as [|s l]; [congruence|].
    exists (String c s :: l). repeat split; [|discriminate|].
    + inversion Hall as [|? ? Hs Hl]; subst. constructor; [|exact Hl].
      cbn [JS.includes].
      destruct (JS.strip_prefix ARROW_ENTITY (String c s)) as [z|] eqn:E;
        [exfalso | exact Hs].
      apply strip_prefix_Some in E.
      rewrite concat_head in Hnone.
      change (String c (s ++ ?x)) with (String c s ++ x) in Hnone.
      rewrite E, append_assoc, strip_prefix_append in Hnone. discriminate.
    + now rewrite concat_cons_char.
Qed.

(* ===================================================================== *)
(** ** Facts about the request channel *)
(* ===================================================================== *)

Module ChannelFacts.
Import Channel.

Lemma shape_start requestId code error attempt maxAttempts :
  shape (effects (start requestId code error attempt maxAttempts))
        (start requestId code error attempt maxAttempts).
Proof. cbv [shape start promise listening armed effects]. auto. Qed.

Lemma shape_dispatch init st ev : shape init st -> shape init (dispatch st ev).
Proof.
  unfold shape. intros H.
  destruct (promise st) as [r|] eqn:Hp.
  - destruct H as (Hl & Ha & He).
    destruct ev as [m|]; simpl; rewrite ?Hl, ?Ha, Hp; auto.
  - destruct H as (Hl & Ha & He).
    destruct ev as [m|]; simpl; rewrite ?Hl, ?Ha.
    + unfold messageListener.
      destruct ((type m =? "mermaidFixResponse") && (requestId m =? id st));
        [|rewrite Hp; auto].
      destruct (success m); simpl; rewrite Hp, He, <- app_assoc; auto.
    + simpl. rewrite Hp, He, <- app_assoc. auto.
Qed.

Lemma shape_run init evs : forall st, shape init st -> shape init (run evs st).
Proof.
  induction evs as [|ev evs IH]; intros st H; [exact H|].
  simpl. apply IH. now apply shape_dispatch.
Qed.

Lemma run_app evs1 evs2 st : run (evs1 ++ evs2) st = run evs2 (run evs1 st).
Proof. apply fold_left_app. Qed.

(** The deadline settles whatever is still pending. *)
Lemma deadline_settles init st :
  shape init st -> exists r, promise (dispatch st TimerElapsed) = Some r.
Proof.
  unfold shape. intros H. destruct (promise st) as [r|] eqn:Hp.
  - destruct H as (_ & Ha & _). simpl. rewrite Ha. eauto.
  - destruct H as (_ & Ha & _). simpl. rewrite Ha. simpl. rewrite Hp. eauto.
Qed.

Lemma await_settled inbox requestId code error attempt maxAttempts :
  promise (run (inbox ++ [TimerElapsed])
             (start requestId code error attempt maxAttempts))
  = Some (await inbox (start requestId code error attempt maxAttempts)).
Proof.
  unfold await.
  rewrite run_app. unfold run at 1 3. cbn [fold_left].
  destruct (deadline_settles _ _
              (shape_run _ inbox _
                 (shape_start requestId code error attempt maxAttempts)))
    as [r ->].
  reflexivity.
Qed.

Lemma run_unrelated evs : forall st,
  forallb (unrelated (id st)) evs = true -> run evs st = st.
Proof.
  induction evs as [|ev evs IH]; intros st H; [reflexivity|].
  simpl in H. apply andb_true_iff in H as [Hev Hevs].
  assert (Hd : dispatch st ev = st).
  { destruct ev as [m|]; [|discriminate]. simpl in *.
    unfold messageListener.
    destruct ((type m =? "mermaidFixResponse")
              && (Channel.requestId m =? id st)); [discriminate|].
    now destruct (listening st). }
  simpl. rewrite Hd. now apply IH.
Qed.

Lemma promise_stable_dispatch st ev r :
  promise st = Some r -> promise (dispatch st ev) = Some r.
Proof.
  intros Hp. destruct ev as [m|]; simpl.
  - destruct (listening st); [|exact Hp]. unfold messageListener.
    destruct (_ && _); [|exact Hp].
    destruct (success m); simpl; now rewrite Hp.
  - destruct (armed st); [|exact Hp]. simpl. now rewrite Hp.
Qed.

Lemma promise_stable_run evs : forall st r,
  promise st = Some r -> promise (run evs st) = Some r.
Proof.
  induction evs as [|ev evs IH]; intros st r Hp; [exact Hp|].
  simpl. apply IH. now apply promise_stable_dispatch.
Qed.

(** The promise settles with the first response addressed to the call. *)
Lemma await_response before m after requestId code error attempt maxAttempts :
  forallb (unrelated requestId) before = true ->
  type m = "mermaidFixResponse" ->
  Channel.requestId m = requestId ->
  await (before ++ Incoming m :: after)
        (start requestId code error attempt maxAttempts) =
  if success m then Resolved (fixedCode m)
  else Rejected (JS.or_else (Channel.error m) "LLM fix failed").
Proof.
  intros Hb Ht Hid. unfold await.
  rewrite <- app_assoc, run_app, (run_unrelated before) by exact Hb.
  simpl app. unfold run. cbn [fold_left]. fold (run (after ++ [TimerElapsed])).
  erewrite promise_stable_run; [reflexivity|].
  simpl. unfold messageListener. simpl.
  rewrite Ht, Hid, !String.eqb_refl. simpl.
  now destruct (success m).
Qed.

(** With no response addressed to the call, the deadline rejects it. *)
Lemma await_timeout inbox requestId code error attempt maxAttempts :
  forallb (unrelated requestId) inbox = true ->
  await inbox (start requestId code error attempt maxAttempts) =
  Rejected "LLM fix request timed out".
Proof.
  intros Hb. unfold await.
  rewrite run_app, (run_unrelated inbox) by exact Hb.
  reflexivity.
Qed.

End ChannelFacts.

(* ===================================================================== *)
(** ** Facts about the fix loop *)
(* ===================================================================== *)

Lemma last_validated_app t1 : forall t2 d,
  last_validated (t1 ++ t2) d = last_validated t2 (last_validated t1 d).
Proof.
  induction t1 as [|[code|code error attempt] t1 IH]; intros t2 d; simpl;
    [reflexivity | apply IH ..].
Qed.

Section FixerFacts.

Variable env : environment.

Lemma fixLoop_step n a cur err best :
  fixLoop env (S n) a cur err best =
  let noFix := {| success := false; fixedCode := best;
                  error := Some "LLM failed to provide a fix";
                  attempts := a |} in
  match settlement_of env cur err a with
  | Channel.Rejected message =>
      ({| success := false; fixedCode := best; error := Some message;
          attempts := a |}, [Requested cur err a])
  | Channel.Resolved None => (noFix, [Requested cur err a])
  | Channel.Resolved (Some f) =>
      if negb (JS.truthy f) then (noFix, [Requested cur err a])
      else if isValid (validate_with (mermaid_parse env) f) then
        ({| success := true; fixedCode := f; error := None; attempts := a |},
         [Requested cur err a; Validated f])
      else
        let (r, t) :=
          fixLoop env n (S a) f
            (JS.or_else (validationError (validate_with (mermaid_parse env) f))
               "Unknown validation error") f in
        (r, Requested cur err a :: Validated f :: t)
  end.
Proof.
  cbn [fixLoop]. unfold requestLLMFix, bind, ret, validateSyntax.
  destruct (settlement_of env cur err a) as [[f|]|message]; try reflexivity.
  destruct (negb (JS.truthy f)); [reflexivity|].
  destruct (isValid (validate_with (mermaid_parse env) f)); [reflexivity|].
  destruct (fixLoop env n (S a) f _ f). reflexivity.
Qed.

Lemma fixLoop_attempts n : forall a cur err best,
  let r := fst (fixLoop env n a cur err best) in
  attempts r = MAX_FIX_ATTEMPTS \/ (a <= attempts r /\ attempts r < a + n).
Proof.
  induction n as [|n IH]; intros a cur err best; [now left|].
  cbv zeta. rewrite fixLoop_step. cbv zeta.
  destruct (settlement_of env cur err a) as [[f|]|message];
    try (right; simpl; lia).
  destruct (negb (JS.truthy f)); [right; simpl; lia|].
  destruct (isValid (validate_with (mermaid_parse env) f)); [right; simpl; lia|].
  specialize (IH (S a) f
    (JS.or_else (validationError (validate_with (mermaid_parse env) f))
       "Unknown validation error") f).
  cbv zeta in IH. destruct (fixLoop env n (S a) f _ f) as [r t].
  simpl in *. lia.
Qed.

Lemma fixLoop_requests n : forall a cur err best,
  requests (snd (fixLoop env n a cur err best)) <= n.
Proof.
  induction n as [|n IH]; intros a cur err best; [exact (le_n 0)|].
  rewrite fixLoop_step. cbv zeta. unfold requests in *.
  destruct (settlement_of env cur err a) as [[f|]|message];
    try (cbn; lia).
  destruct (negb (JS.truthy f)); [cbn; lia|].
  destruct (isValid (validate_with (mermaid_parse env) f)); [cbn; lia|].
  specialize (IH (S a) f
    (JS.or_else (validationError (validate_with (mermaid_parse env) f))
       "Unknown validation error") f).
  destruct (fixLoop env n (S a) f _ f) as [r t].
  cbn in *. lia.
Qed.

(** A request that brings no fix ends the sequence: nothing follows it in
    the trace, and the result carries the text that was sent with it. *)
Lemma fixLoop_no_fix n : forall a cur err pre c e k post,
  snd (fixLoop env n a cur err cur) = (pre ++ Requested c e k :: post)%list ->
  brings_no_fix (settlement_of env c e k) = true ->
  post = [] /\
  fst (fixLoop env n a cur err cur) =
    {| success := false; fixedCode := c;
       error := Some (failure_text (settlement_of env c e k));
       attempts := k |}.
Proof.
  induction n as [|n IH]; intros a cur err pre c e k post Ht Hno.
  - simpl in Ht. destruct pre; discriminate.
  - rewrite fixLoop_step in Ht |- *. cbv zeta in Ht |- *.
    destruct pre as [|x pre].
    + simpl in Ht.
      assert (Hhead : Requested cur err a = Requested c e k /\
                      (post = [] \/ brings_no_fix (settlement_of env cur err a) = false)).
      { destruct (settlement_of env cur err a) as [[f|]|message]; simpl in *;
          try (injection Ht as -> -> -> <-; auto).
        destruct (JS.truthy f); simpl in *.
        - destruct (isValid (validate_with (mermaid_parse env) f)).
          + injection Ht as -> -> -> <-; auto.
          + destruct (fixLoop env n (S a) f _ f).
            injection Ht as -> -> -> <-; auto.
        - injection Ht as -> -> -> <-; auto. }
      destruct Hhead as [Heq Hpost]. injection Heq as -> -> ->.
      destruct Hpost as [-> | Hf]; [|congruence].
      split; [reflexivity|].
      destruct (settlement_of env c e k) as [[f|]|message]; simpl in *;
        try reflexivity; try discriminate.
      destruct (JS.truthy f); [discriminate | reflexivity].
    + destruct (settlement_of env cur err a) as [[f|]|message]; simpl in Ht;
        try (injection Ht as _ Ht; destruct pre; discriminate).
      destruct (JS.truthy f); simpl in Ht |- *;
        [|injection Ht as _ Ht; destruct pre; discriminate].
      destruct (isValid (validate_with (mermaid_parse env) f)).
      * injection Ht as _ Ht. destruct pre as [|y pre]; [discriminate|].
        injection Ht as _ Ht. destruct pre; discriminate.
      * specialize (IH (S a) f
          (JS.or_else (validationError (validate_with (mermaid_parse env) f))
             "Unknown validation error")).
        destruct (fixLoop env n (S a) f _ f) as [r t].
        simpl in Ht |- *. injection Ht as _ Ht.
        destruct pre as [|y pre]; [discriminate|].
        injection Ht as _ Ht.
        exact (IH pre c e k post Ht Hno).
Qed.

(** The reported text is the last one given to [validateSyntax], or the
    text the loop started from if it validated none. *)
Lemma fixLoop_last_validated n : forall a cur err,
  last_validated (snd (fixLoop env n a cur err cur)) (Some cur) =
  Some (fixedCode (fst (fixLoop env n a cur err cur))).
Proof.
  induction n as [|n IH]; intros a cur err; [reflexivity|].
  rewrite fixLoop_step. cbv zeta.
  destruct (settlement_of env cur err a) as [[f|]|message];
    try reflexivity.
  destruct (negb (JS.truthy f)); [reflexivity|].
  destruct (isValid (validate_with (mermaid_parse env) f)); [reflexivity|].
  specialize (IH (S a) f
    (JS.or_else (validationError (validate_with (mermaid_parse env) f))
       "Unknown validation error")).
  destruct (fixLoop env n (S a) f _ f) as [r t].
  exact IH.
Qed.

Lemma fixLoop_nonempty n : forall a cur err,
  cur <> "" -> fixedCode (fst (fixLoop env n a cur err cur)) <> "".
Proof.
  induction n as [|n IH]; intros a cur err Hcur; [exact Hcur|].
  rewrite fixLoop_step. cbv zeta.
  destruct (settlement_of env cur err a) as [[f|]|message]; try exact Hcur.
  destruct (JS.truthy f) eqn:Hf; simpl; [|exact Hcur].
  assert (f <> "") by (intros ->; discriminate).
  destruct (isValid (validate_with (mermaid_parse env) f)); [assumption|].
  specialize (IH (S a) f
    (JS.or_else (validationError (validate_with (mermaid_parse env) f))
       "Unknown validation error") H).
  destruct (fixLoop env n (S a) f _ f) as [r t]. exact IH.
Qed.

Lemma autoFixSyntax_step code :
  autoFixSyntax env code =
  let d := applyDeterministicFixes code in
  let validation := validate_with (mermaid_parse env) d in
  if isValid validation then
    ({| success := true; fixedCode := d; error := None; attempts := 0 |},
     [Validated d])
  else
    let (r, t) :=
      fixSyntax env d
        (JS.or_else (validationError validation) "Unknown syntax error") in
    (r, Validated d :: t).
Proof.
  unfold autoFixSyntax, bind, ret, validateSyntax. cbv zeta.
  destruct (isValid (validate_with (mermaid_parse env)
                       (applyDeterministicFixes code))); reflexivity.
Qed.

Lemma autoFixSyntax_requests code :
  requests (snd (autoFixSyntax env code)) <= MAX_FIX_ATTEMPTS.
Proof.
  rewrite autoFixSyntax_step. cbv zeta.
  destruct (isValid _); [cbn; lia|].
  unfold fixSyntax.
  pose proof (fixLoop_requests MAX_FIX_ATTEMPTS 1
    (applyDeterministicFixes code)
    (JS.or_else (validationError (validate_with (mermaid_parse env)
       (applyDeterministicFixes code))) "Unknown syntax error")
    (applyDeterministicFixes code)) as H.
  destruct (fixLoop env MAX_FIX_ATTEMPTS 1 _ _ _) as [r t].
  exact H.
Qed.

End FixerFacts.

(* ===================================================================== *)
(** ** Facts about the component *)
(* ===================================================================== *)

Module MermaidBlockFacts.
Import MermaidBlock.

Lemma guarded_mount c : guarded c (mount c).
Proof. unfold guarded. simpl. repeat split; auto. Qed.

Lemma guarded_renderMermaid c env mermaid_render st :
  guarded c st -> scheduled st = true ->
  guarded c (renderMermaid env mermaid_render (unschedule st)).
Proof.
  intros (Hc & Hs & Hf & H) Hsched. unfold renderMermaid. cbn.
  rewrite Hf. cbn.
  assert (Hquiet : forall e,
    guarded c (setIsLoading false (setError e (unschedule st)))).
  { intros e. unfold guarded. cbn. repeat split; auto.
    destruct H as [H | (H1 & H2 & _)]; auto. }
  assert (Hthrown : forall thrown,
    guarded c
      (if negb (hasAutoFixed st) && (currentCode st =? code st) && true
       then
         let (fixResult, trace) := autoFixSyntax env (currentCode st) in
         if success fixResult && JS.truthy (fixedCode fixResult)
            && negb (fixedCode fixResult =? currentCode st)
         then
           setIsLoading false
             (setIsFixing false
                (setFixAttempts (attempts fixResult)
                   (setHasAutoFixed true
                      (setCurrentCode (fixedCode fixResult)
                         (countAutoFix trace
                            (setIsFixing true (unschedule st)))))))
         else
           setIsLoading false
             (setIsFixing false
                (setError (Some (errorMessage_of thrown))
                   (countAutoFix trace (setIsFixing true (unschedule st)))))
       else
         setIsLoading false
           (setError (Some (errorMessage_of thrown)) (unschedule st)))).
  { intros thrown.
    destruct (negb (hasAutoFixed st) && (currentCode st =? code st) && true)
      eqn:Hguard; [|apply Hquiet].
    assert (Hnot : hasAutoFixed st = false).
    { destruct (hasAutoFixed st); [discriminate | reflexivity]. }
    assert (H0 : autoFixCalls st = 0 /\ autoRequests st = 0).
    { destruct H as [H | (_ & _ & [Hsc | Hh])]; [exact H | congruence ..]. }
    destruct H0 as [Hcalls Hreq].
    pose proof (autoFixSyntax_requests env (currentCode st)) as Hle.
    destruct (autoFixSyntax env (currentCode st)) as [fixResult trace].
    simpl in Hle.
    destruct (success fixResult && JS.truthy (fixedCode fixResult)
              && negb (fixedCode fixResult =? currentCode st));
      unfold guarded; cbn; rewrite Hcalls, Hreq;
      repeat split; auto; right; repeat split; auto. }
  destruct (mermaid_parse env (currentCode st)) as [|message|].
  - destruct (mermaid_render (currentCode st)) as [|message|].
    + apply Hquiet.
    + apply (Hthrown (ThrewError message)).
    + apply (Hthrown ThrewOther).
  - apply (Hthrown (ThrewError message)).
  - apply (Hthrown ThrewOther).
Qed.

Lemma guarded_handleManualFix c env st :
  guarded c st -> guarded c (handleManualFix env st).
Proof.
  intros (Hc & Hs & Hf & H). unfold handleManualFix. rewrite Hf.
  destruct (autoFixSyntax env (code st)) as [fixResult trace].
  destruct (success fixResult && JS.truthy (fixedCode fixResult));
    unfold guarded; cbn; repeat split; auto;
    destruct H as [H | (H1 & H2 & H3)]; auto.
Qed.

Lemma guarded_step c st ev :
  keeps_source c ev -> guarded c st -> guarded c (step st ev).
Proof.
  intros Hk H. destruct ev as [env mermaid_render | env | newCode]; simpl.
  - destruct (scheduled st) eqn:Hsched; [|exact H].
    now apply guarded_renderMermaid.
  - now apply guarded_handleManualFix.
  - simpl in Hk. destruct H as (Hc & H). subst newCode.
    rewrite <- Hc, String.eqb_refl. rewrite Hc. now split.
Qed.

Lemma guarded_run c evs : forall st,
  Forall (keeps_source c) evs -> guarded c st -> guarded c (run evs st).
Proof.
  induction evs as [|ev evs IH]; intros st Hall H; [exact H|].
  inversion Hall as [|? ? Hev Hevs]; subst.
  simpl. apply IH; [exact Hevs|]. now apply guarded_step.
Qed.

(** Only the effect on [[code]] clears [hasAutoFixed]. *)
Lemma hasAutoFixed_cleared st ev :
  hasAutoFixed st = true -> hasAutoFixed (step st ev) = false ->
  exists newCode, ev = SetCode newCode /\ newCode <> code st.
Proof.
  intros Hh Hstep.
  destruct ev as [env mermaid_render | env | newCode]; simpl in Hstep.
  - exfalso. destruct (scheduled st); [|congruence].
    unfold renderMermaid in Hstep. cbn in Hstep. rewrite Hh in Hstep.
    cbn in Hstep.
    destruct (mermaid_parse env (currentCode st));
      [destruct (mermaid_render (currentCode st))|..];
      destruct (isFixing st); cbn in Hstep; congruence.
  - exfalso. unfold handleManualFix in Hstep.
    destruct (isFixing st); [congruence|].
    destruct (autoFixSyntax env (code st)) as [fixResult trace].
    destruct (success fixResult && JS.truthy (fixedCode fixResult));
      cbn in Hstep; congruence.
  - exists newCode. split; [reflexivity|].
    destruct (String.eqb_spec newCode (code st)); [congruence | assumption].
Qed.

End MermaidBlockFacts.

(* ===================================================================== *)
(** ** Properties of the deterministic pass *)
(* ===================================================================== *)

(** C6. [applyDeterministicFixes] returns its input with every occurrence
    of the entity [--&gt;] replaced by [-->] and every other code unit
    unchanged: the input splits into segments that hold no occurrence of
    the entity, joined by the entity, and for every such splitting the
    result is the same segments, untouched, joined by the arrow. *)
Theorem applyDeterministicFixes_replaces_each_entity (code : string) :
  (exists segs,
     Forall (fun s => JS.includes ARROW_ENTITY s = false) segs /\
     code = String.concat ARROW_ENTITY segs) /\
  (forall segs,
     Forall (fun s => JS.includes ARROW_ENTITY s = false) segs ->
     code = String.concat ARROW_ENTITY segs ->
     applyDeterministicFixes code = String.concat ARROW segs).
Proof.
  split.
  - destruct (segments_exist code) as (segs & Hall & _ & Hcode). eauto.
  - intros segs Hall ->. now apply applyDeterministicFixes_join.
Qed.

Lemma applyDeterministicFixes_replaces_each_entity_witness :
  Forall (fun s => JS.includes ARROW_ENTITY s = false)
    ["A "; " B &amp; C &lt; D"] /\
  "A --&gt; B &amp; C &lt; D" =
    String.concat ARROW_ENTITY ["A "; " B &amp; C &lt; D"] /\
  applyDeterministicFixes "A --&gt; B &amp; C &lt; D" =
    String.concat ARROW ["A "; " B &amp; C &lt; D"].
Proof.
  assert (H : Forall (fun s => JS.includes ARROW_ENTITY s = false)
                ["A "; " B &amp; C &lt; D"])
    by (repeat constructor).
  split; [exact H | split; [reflexivity|]].
  apply (proj2 (applyDeterministicFixes_replaces_each_entity
                  "A --&gt; B &amp; C &lt; D")
           ["A "; " B &amp; C &lt; D"] H eq_refl).
Defined.

(** C7. [applyDeterministicFixes] is a total function of its argument; it
    is idempotent, and it returns its argument unchanged when the argument
    holds no occurrence of the entity [--&gt;]. *)
Theorem applyDeterministicFixes_idempotent_and_noop (x : string) :
  applyDeterministicFixes (applyDeterministicFixes x)
    = applyDeterministicFixes x /\
  (JS.includes ARROW_ENTITY x = false -> applyDeterministicFixes x = x).
Proof.
  split.
  - apply applyDeterministicFixes_idempotent.
  - apply applyDeterministicFixes_noop.
Qed.

Lemma applyDeterministicFixes_idempotent_and_noop_witness :
  JS.includes ARROW_ENTITY "A --> B" = false /\
  applyDeterministicFixes "A --> B" = "A --> B".
Proof.
  split; [reflexivity|].
  apply (proj2 (applyDeterministicFixes_idempotent_and_noop "A --> B")).
  reflexivity.
Defined.

(* ===================================================================== *)
(** ** Properties of the request channel *)
(* ===================================================================== *)

(** C9. A call of [requestLLMFix] registers one message listener and one
    timeout.  Whatever reaches the window afterwards, either its promise is
    still pending, with the listener registered and the timer armed, or it
    has settled after the timer was cleared and the listener removed, once
    each and before the settlement, and no listener of the call is left.
    The deadline settles a promise that is still pending. *)
Theorem requestLLMFix_releases_listener_and_timer
    (requestId code error : string) (attempt maxAttempts : nat)
    (evs : list Channel.event) :
  let st0 := Channel.start requestId code error attempt maxAttempts in
  let st := Channel.run evs st0 in
  Channel.count Channel.is_AddEventListener st = 1 /\
  Channel.count Channel.is_SetTimeout st = 1 /\
  match Channel.promise st with
  | None =>
      Channel.listening st = true /\ Channel.armed st = true /\
      Channel.count Channel.is_RemoveEventListener st = 0 /\
      Channel.count Channel.is_ClearTimeout st = 0
  | Some r =>
      Channel.listening st = false /\ Channel.armed st = false /\
      Channel.count Channel.is_RemoveEventListener st = 1 /\
      Channel.count Channel.is_ClearTimeout st = 1 /\
      Channel.effects st =
        (Channel.effects st0 ++
         [Channel.ClearTimeout; Channel.RemoveEventListener;
          Channel.effect_of r])%list
  end /\
  Channel.promise (Channel.run (evs ++ [Channel.TimerElapsed]) st0) <> None.
Proof.
  intros st0 st.
  pose proof (ChannelFacts.shape_run _ evs _
                (ChannelFacts.shape_start requestId code error attempt
                   maxAttempts)) as H.
  fold st0 in H. fold st in H. unfold Channel.shape in H.
  assert (Hdeadline :
    Channel.promise (Channel.run (evs ++ [Channel.TimerElapsed]) st0) <> None).
  { unfold st0. rewrite ChannelFacts.await_settled. discriminate. }
  unfold Channel.count.
  destruct (Channel.promise st) as [r|].
  - destruct H as (Hl & Ha & He). rewrite He.
    destruct r; simpl; repeat split; auto.
  - destruct H as (Hl & Ha & He). rewrite He.
    simpl; repeat split; auto.
Qed.

(* ===================================================================== *)
(** ** Properties of the fix loop *)
(* ===================================================================== *)

(** C1. [fixSyntax] reports a correction of the assistant as it arrived,
    so the [fixedCode] of [autoFixSyntax] need not be a fixed point of the
    deterministic pass.  With a parser that accepts only [A --> B] and an
    assistant that answers [A --&gt; B], [autoFixSyntax] on [A -> B] fails
    after two attempts with a [fixedCode] that the pass would still
    change. *)
Theorem autoFixSyntax_reports_raw_correction :
  let r := fst (autoFixSyntax
                  (Scenario.scripted (Scenario.accepts "A --> B")
                     (Scenario.always "A --&gt; B"))
                  "A -> B") in
  success r = false /\ attempts r = 2 /\
  fixedCode r = "A --&gt; B" /\
  applyDeterministicFixes (fixedCode r) = "A --> B" /\
  fixedCode r <> applyDeterministicFixes (fixedCode r).
Proof. cbv zeta. repeat split. discriminate. Qed.

(** C2. In the same run the text given to [validateSyntax] after each
    request is the assistant's correction itself, not its normal form:
    [A --&gt; B] is validated twice and [A --> B], which the parser
    accepts, never. *)
Theorem fixSyntax_validates_raw_correction :
  snd (autoFixSyntax
         (Scenario.scripted (Scenario.accepts "A --> B")
            (Scenario.always "A --&gt; B"))
         "A -> B")
  = [Validated "A -> B";
     Requested "A -> B" "Parse error" 1; Validated "A --&gt; B";
     Requested "A --&gt; B" "Parse error" 2; Validated "A --&gt; B"] /\
  isValid (validate_with (Scenario.accepts "A --> B")
             (applyDeterministicFixes "A --&gt; B")) = true.
Proof. split; reflexivity. Qed.

(** C3. Whatever the parser and the assistant do, the [attempts] of the
    result of [autoFixSyntax] lie between 0 and [MAX_FIX_ATTEMPTS], which
    is 2; they are 0 exactly when the deterministically fixed input
    validates, and this happens for some input. *)
Theorem autoFixSyntax_attempts_bounded :
  MAX_FIX_ATTEMPTS = 2 /\
  (forall env code,
     let r := fst (autoFixSyntax env code) in
     0 <= attempts r <= MAX_FIX_ATTEMPTS /\
     (attempts r = 0 <->
      isValid (validate_with (mermaid_parse env)
                 (applyDeterministicFixes code)) = true)) /\
  (exists env code, attempts (fst (autoFixSyntax env code)) = 0).
Proof.
  split; [reflexivity | split].
  - intros env code. cbv zeta. rewrite autoFixSyntax_step. cbv zeta.
    destruct (isValid (validate_with (mermaid_parse env)
                         (applyDeterministicFixes code))).
    + simpl. repeat split; auto; lia.
    + unfold fixSyntax.
      pose proof (fixLoop_attempts env MAX_FIX_ATTEMPTS 1
        (applyDeterministicFixes code)
        (JS.or_else (validationError (validate_with (mermaid_parse env)
           (applyDeterministicFixes code))) "Unknown syntax error")
        (applyDeterministicFixes code)) as H.
      cbv zeta in H.
      destruct (fixLoop env MAX_FIX_ATTEMPTS 1 _ _ _) as [r t].
      unfold MAX_FIX_ATTEMPTS in *. simpl in *.
      repeat split; intros; try lia; discriminate.
  - exists (Scenario.scripted (Scenario.accepts "A --> B") Scenario.silent).
    exists "A --&gt; B". reflexivity.
Qed.

(** C4. When a request of [fixSyntax] brings no fix (its promise resolves
    with no text or is rejected, by a failure response or by the timeout),
    the sequence ends there: no request and no validation follows, the
    result has [success: false], its [fixedCode] is the candidate that was
    sent with the request, which is the last text validated before it or
    the original code, and its [attempts] is the number of that request.
    When the promise resolved, the error is [LLM failed to provide a fix];
    when it was rejected, the error is the rejection's message. *)
Theorem fixSyntax_stops_when_request_brings_no_fix
    (env : environment) (originalCode error0 : string)
    (pre post : list io_event) (c e : string) (k : nat) :
  snd (fixSyntax env originalCode error0)
    = (pre ++ Requested c e k :: post)%list ->
  brings_no_fix (settlement_of env c e k) = true ->
  let r := fst (fixSyntax env originalCode error0) in
  post = [] /\
  success r = false /\
  fixedCode r = c /\
  last_validated pre (Some originalCode) = Some c /\
  attempts r = k /\
  error r = Some (failure_text (settlement_of env c e k)) /\
  (forall v, settlement_of env c e k = Channel.Resolved v ->
             error r = Some "LLM failed to provide a fix").
Proof.
  intros Ht Hno r.
  destruct (fixLoop_no_fix env MAX_FIX_ATTEMPTS 1 originalCode error0
              pre c e k post Ht Hno) as [-> Hr].
  pose proof (fixLoop_last_validated env MAX_FIX_ATTEMPTS 1 originalCode error0)
    as Hlast.
  fold (fixSyntax env originalCode error0) in Hr, Hlast.
  rewrite Ht, last_validated_app in Hlast. simpl in Hlast.
  subst r. rewrite Hr in *. simpl in *.
  repeat split; auto.
  intros v Hv. now rewrite Hv.
Qed.

Lemma fixSyntax_stops_when_request_brings_no_fix_witness :
  let env := Scenario.scripted Scenario.rejects (Scenario.once "B") in
  let r := fst (fixSyntax env "A" "Parse error") in
  snd (fixSyntax env "A" "Parse error")
    = ([Requested "A" "Parse error" 1; Validated "B"]
       ++ Requested "B" "Parse error" 2 :: [])%list /\
  brings_no_fix (settlement_of env "B" "Parse error" 2) = true /\
  success r = false /\ fixedCode r = "B" /\ attempts r = 2 /\
  error r = Some "LLM failed to provide a fix".
Proof.
  intros env r.
  assert (Ht : snd (fixSyntax env "A" "Parse error")
                 = ([Requested "A" "Parse error" 1; Validated "B"]
                    ++ Requested "B" "Parse error" 2 :: [])%list)
    by reflexivity.
  assert (Hno : brings_no_fix (settlement_of env "B" "Parse error" 2) = true)
    by reflexivity.
  split; [exact Ht | split; [exact Hno|]].
  destruct (fixSyntax_stops_when_request_brings_no_fix env "A" "Parse error"
              [Requested "A" "Parse error" 1; Validated "B"] []
              "B" "Parse error" 2 Ht Hno)
    as (_ & Hs & Hf & _ & Ha & He & _).
  repeat split; assumption.
Defined.

(** C10. When the first response addressed to a request of [fixSyntax]
    carries [success: true] and the empty string as its [fixedCode], the
    sequence ends as for a [null] result: [success: false], the error
    [LLM failed to provide a fix], the candidate sent with the request as
    [fixedCode]; the empty string is neither validated nor adopted. *)
Theorem fixSyntax_treats_empty_correction_as_no_fix
    (env : environment) (originalCode error0 : string)
    (pre post : list io_event) (c e : string) (k : nat)
    (before after : list Channel.event) (m : Channel.message) :
  snd (fixSyntax env originalCode error0)
    = (pre ++ Requested c e k :: post)%list ->
  inbox env c e k = (before ++ Channel.Incoming m :: after)%list ->
  forallb (Channel.unrelated (draw_id env c e k)) before = true ->
  Channel.type m = "mermaidFixResponse" ->
  Channel.requestId m = draw_id env c e k ->
  Channel.success m = true ->
  Channel.fixedCode m = Some "" ->
  let r := fst (fixSyntax env originalCode error0) in
  settlement_of env c e k = Channel.Resolved (Some "") /\
  post = [] /\
  success r = false /\
  error r = Some "LLM failed to provide a fix" /\
  fixedCode r = c /\
  attempts r = k.
Proof.
  intros Ht Hin Hb Hty Hid Hok Hfix r.
  assert (Hs : settlement_of env c e k = Channel.Resolved (Some "")).
  { unfold settlement_of. rewrite Hin.
    rewrite (ChannelFacts.await_response before m after _ _ _ _ _ Hb Hty Hid).
    now rewrite Hok, Hfix. }
  assert (Hno : brings_no_fix (settlement_of env c e k) = true)
    by now rewrite Hs.
  destruct (fixLoop_no_fix env MAX_FIX_ATTEMPTS 1 originalCode error0
              pre c e k post Ht Hno) as [-> Hr].
  fold (fixSyntax env originalCode error0) in Hr.
  subst r. rewrite Hr, Hs. simpl. repeat split; auto.
Qed.

Lemma fixSyntax_treats_empty_correction_as_no_fix_witness :
  let env := Scenario.scripted Scenario.rejects Scenario.empty_fix in
  let r := fst (fixSyntax env "A" "Parse error") in
  snd (fixSyntax env "A" "Parse error")
    = ([] ++ Requested "A" "Parse error" 1 :: [])%list /\
  inbox env "A" "Parse error" 1
    = ([Scenario.response 8 true (Some "x") None]
       ++ Scenario.response 1 true (Some "") None :: [])%list /\
  success r = false /\
  error r = Some "LLM failed to provide a fix" /\
  fixedCode r = "A".
Proof.
  intros env r.
  assert (Ht : snd (fixSyntax env "A" "Parse error")
                 = ([] ++ Requested "A" "Parse error" 1 :: [])%list)
    by reflexivity.
  assert (Hin : inbox env "A" "Parse error" 1
                  = ([Scenario.response 8 true (Some "x") None]
                     ++ Channel.Incoming
                          {| Channel.type := "mermaidFixResponse";
                             Channel.requestId := Scenario.tag 1;
                             Channel.success := true;
                             Channel.fixedCode := Some "";
                             Channel.error := None |} :: [])%list)
    by reflexivity.
  split; [exact Ht | split; [exact Hin|]].
  destruct (fixSyntax_treats_empty_correction_as_no_fix env "A" "Parse error"
              [] [] "A" "Parse error" 1 _ [] _ Ht Hin
              eq_refl eq_refl eq_refl eq_refl eq_refl)
    as (_ & _ & Hs & He & Hf & _).
  repeat split; assumption.
Defined.

(** C5, amended.  When [autoFixSyntax] returns [success: false], its
    [fixedCode] is the text of the last [validateSyntax] call of the
    sequence, and it is not empty when the input is not empty. *)
Theorem failed_autoFixSyntax_reports_last_validated
    (env : environment) (code : string) :
  success (fst (autoFixSyntax env code)) = false ->
  last_validated (snd (autoFixSyntax env code)) None
    = Some (fixedCode (fst (autoFixSyntax env code))) /\
  (code <> "" -> fixedCode (fst (autoFixSyntax env code)) <> "").
Proof.
  rewrite autoFixSyntax_step. cbv zeta.
  destruct (isValid (validate_with (mermaid_parse env)
                       (applyDeterministicFixes code))); [discriminate|].
  intros _. unfold fixSyntax.
  pose proof (fixLoop_last_validated env MAX_FIX_ATTEMPTS 1
    (applyDeterministicFixes code)
    (JS.or_else (validationError (validate_with (mermaid_parse env)
       (applyDeterministicFixes code))) "Unknown syntax error")) as Hlast.
  pose proof (fixLoop_nonempty env MAX_FIX_ATTEMPTS 1
    (applyDeterministicFixes code)
    (JS.or_else (validationError (validate_with (mermaid_parse env)
       (applyDeterministicFixes code))) "Unknown syntax error")) as Hne.
  destruct (fixLoop env MAX_FIX_ATTEMPTS 1 _ _ _) as [r t].
  simpl in *. split; [exact Hlast|].
  intros Hcode. apply Hne. now apply applyDeterministicFixes_nonempty.
Qed.

Lemma failed_autoFixSyntax_reports_last_validated_witness :
  let env := Scenario.scripted Scenario.rejects (Scenario.once "B") in
  success (fst (autoFixSyntax env "A")) = false /\
  "A" <> "" /\
  last_validated (snd (autoFixSyntax env "A")) None = Some "B" /\
  fixedCode (fst (autoFixSyntax env "A")) <> "".
Proof.
  intros env.
  assert (Hs : success (fst (autoFixSyntax env "A")) = false) by reflexivity.
  assert (Hc : "A" <> "") by discriminate.
  split; [exact Hs | split; [exact Hc|]].
  destruct (failed_autoFixSyntax_reports_last_validated env "A" Hs)
    as [Hlast Hne].
  split; [exact Hlast | exact (Hne Hc)].
Defined.

(** C5, counterexample.  On the empty input, when the parser rejects it
    and the assistant brings no fix, [autoFixSyntax] returns
    [success: false] with an empty [fixedCode]. *)
Lemma failed_autoFixSyntax_may_report_empty :
  let r := fst (autoFixSyntax
                  (Scenario.scripted Scenario.rejects Scenario.no_fix) "") in
  success r = false /\ fixedCode r = "".
Proof. split; reflexivity. Qed.

(* ===================================================================== *)
(** ** Properties of the component *)
(* ===================================================================== *)

(** C8. While the [code] prop keeps its value, the render effect calls
    [autoFixSyntax] at most once, however many debounce timers elapse,
    render cycles fail or manual fixes are requested; the requests those
    calls send number at most [MAX_FIX_ATTEMPTS], the bound of one call;
    and [hasAutoFixed], once set, is cleared only by a change of the
    [code] prop. *)
Theorem autoFixSyntax_at_most_once_per_source
    (c : string) (evs : list MermaidBlock.event) :
  Forall (MermaidBlock.keeps_source c) evs ->
  let st := MermaidBlock.run evs (MermaidBlock.mount c) in
  MermaidBlock.autoFixCalls st <= 1 /\
  MermaidBlock.autoRequests st <= MAX_FIX_ATTEMPTS /\
  (forall ev,
     MermaidBlock.hasAutoFixed st = true ->
     MermaidBlock.hasAutoFixed (MermaidBlock.step st ev) = false ->
     exists newCode, ev = MermaidBlock.SetCode newCode /\ newCode <> c).
Proof.
  intros Hall st.
  pose proof (MermaidBlockFacts.guarded_run c evs _ Hall
                (MermaidBlockFacts.guarded_mount c)) as H.
  fold st in H. destruct H as (Hc & _ & _ & H).
  repeat split.
  - destruct H as [[-> _] | (-> & _)]; lia.
  - destruct H as [[_ ->] | (_ & H & _)]; [lia | exact H].
  - intros ev Hh Hstep. rewrite <- Hc.
    now apply MermaidBlockFacts.hasAutoFixed_cleared.
Qed.

Lemma autoFixSyntax_at_most_once_per_source_witness :
  let env := Scenario.scripted Scenario.rejects Scenario.silent in
  let evs := [MermaidBlock.DebounceElapsed env Scenario.rejects;
              MermaidBlock.DebounceElapsed env Scenario.rejects;
              MermaidBlock.ClickFix env;
              MermaidBlock.SetCode "A";
              MermaidBlock.DebounceElapsed env Scenario.rejects] in
  Forall (MermaidBlock.keeps_source "A") evs /\
  MermaidBlock.autoFixCalls (MermaidBlock.run evs (MermaidBlock.mount "A")) = 1 /\
  MermaidBlock.autoFixCalls (MermaidBlock.run evs (MermaidBlock.mount "A")) <= 1.
Proof.
  intros env evs.
  assert (Hall : Forall (MermaidBlock.keeps_source "A") evs)
    by (repeat constructor).
  split; [exact Hall | split; [reflexivity|]].
  exact (proj1 (autoFixSyntax_at_most_once_per_source "A" evs Hall)).
Defined.

(* ===================================================================== *)
(** ** Further facts about the fix loop *)
(* ===================================================================== *)

Lemma isValid_Returned parse c :
  isValid (validate_with parse c) = true <-> parse c = Returned.
Proof.
  unfold validate_with. destruct (parse c); simpl; split; congruence.
Qed.

Section MoreFixerFacts.

Variable env : environment.

Lemma fixLoop_success n : forall a cur err best,
  success (fst (fixLoop env n a cur err best)) = true ->
  mermaid_parse env (fixedCode (fst (fixLoop env n a cur err best))) = Returned /\
  error (fst (fixLoop env n a cur err best)) = None /\
  fixedCode (fst (fixLoop env n a cur err best)) <> "".
Proof.
  induction n as [|n IH]; intros a cur err best; [discriminate|].
  rewrite fixLoop_step. cbv zeta.
  destruct (settlement_of env cur err a) as [[f|]|message];
    try discriminate.
  destruct (JS.truthy f) eqn:Hf; simpl; [|discriminate].
  destruct (isValid (validate_with (mermaid_parse env) f)) eqn:Hv.
  - intros _. simpl. repeat split; [now apply isValid_Returned|].
    intros ->. discriminate.
  - specialize (IH (S a) f
      (JS.or_else (validationError (validate_with (mermaid_parse env) f))
         "Unknown validation error") f).
    destruct (fixLoop env n (S a) f _ f) as [r t]. exact IH.
Qed.

Lemma fixLoop_attempts_requests n : forall a cur err best,
  1 <= a -> a + n = S MAX_FIX_ATTEMPTS ->
  attempts (fst (fixLoop env n a cur err best)) =
  (a - 1) + requests (snd (fixLoop env n a cur err best)).
Proof.
  unfold requests.
  induction n as [|n IH]; intros a cur err best Ha Hn.
  - simpl. lia.
  - rewrite fixLoop_step. cbv zeta.
    destruct (settlement_of env cur err a) as [[f|]|message];
      try (simpl; lia).
    destruct (negb (JS.truthy f)); [simpl; lia|].
    destruct (isValid (validate_with (mermaid_parse env) f)); [simpl; lia|].
    specialize (IH (S a) f
      (JS.or_else (validationError (validate_with (mermaid_parse env) f))
         "Unknown validation error") f).
    destruct (fixLoop env n (S a) f _ f) as [r t].
    simpl in *. rewrite IH by lia. lia.
Qed.

(** Every request of the loop but the first follows the validation of the
    text it sends, found invalid, and carries the error of that
    validation; requests are numbered consecutively. *)
Lemma fixLoop_request_shape n : forall a cur err pre c e k post,
  snd (fixLoop env n a cur err cur) = (pre ++ Requested c e k :: post)%list ->
  (pre = [] /\ c = cur /\ e = err /\ k = a) \/
  (exists pre',
     pre = (pre' ++ [Validated c])%list /\
     isValid (validate_with (mermaid_parse env) c) = false /\
     e = JS.or_else (validationError (validate_with (mermaid_parse env) c))
           "Unknown validation error" /\
     k = a + requests pre /\ 1 <= requests pre).
Proof.
  induction n as [|n IH]; intros a cur err pre c e k post Ht.
  - simpl in Ht. destruct pre; discriminate.
  - rewrite fixLoop_step in Ht. cbv zeta in Ht.
    destruct pre as [|x pre].
    + left.
      assert (Requested cur err a = Requested c e k) as Heq.
      { destruct (settlement_of env cur err a) as [[f|]|message];
          simpl in Ht; try (now injection Ht as -> -> ->).
        destruct (negb (JS.truthy f)); [now injection Ht as -> -> ->|].
        destruct (isValid (validate_with (mermaid_parse env) f));
          [now injection Ht as -> -> ->|].
        destruct (fixLoop env n (S a) f _ f). now injection Ht as -> -> ->. }
      injection Heq as -> -> ->. auto.
    + right.
      destruct (settlement_of env cur err a) as [[f|]|message]; simpl in Ht;
        try (injection Ht as _ Ht; destruct pre; discriminate).
      destruct (negb (JS.truthy f));
        [injection Ht as _ Ht; destruct pre; discriminate|].
      destruct (isValid (validate_with (mermaid_parse env) f)) eqn:Hv.
      * injection Ht as _ Ht. destruct pre as [|y pre]; [discriminate|].
        injection Ht as _ Ht. destruct pre; discriminate.
      * specialize (IH (S a) f
          (JS.or_else (validationError (validate_with (mermaid_parse env) f))
             "Unknown validation error")).
        destruct (fixLoop env n (S a) f _ f) as [r t].
        simpl in Ht. injection Ht as <- Ht.
        destruct pre as [|y pre]; [discriminate|].
        injection Ht as <- Ht.
        destruct (IH pre c e k post Ht)
          as [(-> & -> & -> & ->) | (pre' & -> & Hc & He & Hk & Hr)].
        -- exists [Requested cur err a]. unfold requests. simpl.
           repeat split; auto. lia.
        -- exists (Requested cur err a :: Validated f :: pre').
           unfold requests in *. simpl in *.
           repeat split; auto; lia.
Qed.

Lemma fixLoop_sends n a cur err best :
  snd (fixLoop env (S n) a cur err best) <> [].
Proof.
  rewrite fixLoop_step. cbv zeta.
  destruct (settlement_of env cur err a) as [[f|]|message]; try discriminate.
  destruct (negb (JS.truthy f)); [discriminate|].
  destruct (isValid (validate_with (mermaid_parse env) f)); [discriminate|].
  destruct (fixLoop env n (S a) f _ f). discriminate.
Qed.

(** A failed sequence whose last call is a validation has used all its
    attempts. *)
Lemma fixLoop_exhausted n : forall a cur err pre c,
  snd (fixLoop env n a cur err cur) = (pre ++ [Validated c])%list ->
  success (fst (fixLoop env n a cur err cur)) = false ->
  fst (fixLoop env n a cur err cur) =
    {| success := false; fixedCode := c;
       error := Some ("Failed to fix syntax after "
                      ++ JS.digits MAX_FIX_ATTEMPTS
                      ++ " attempts. Last error: "
                      ++ JS.or_else
                           (validationError
                              (validate_with (mermaid_parse env) c))
                           "Unknown validation error");
       attempts := MAX_FIX_ATTEMPTS |}.
Proof.
  induction n as [|n IH]; intros a cur err pre c Ht Hs.
  - simpl in Ht. destruct pre; discriminate.
  - rewrite fixLoop_step in Ht, Hs |- *. cbv zeta in Ht, Hs |- *.
    destruct (settlement_of env cur err a) as [[f|]|message]; simpl in Ht;
      try (destruct pre as [|? [|? ?]]; discriminate).
    destruct (negb (JS.truthy f));
      [destruct pre as [|? [|? ?]]; discriminate|].
    destruct (isValid (validate_with (mermaid_parse env) f)) eqn:Hv;
      [discriminate|].
    specialize (IH (S a) f
      (JS.or_else (validationError (validate_with (mermaid_parse env) f))
         "Unknown validation error")).
    destruct n as [|n].
    + simpl in Ht |- *.
      destruct pre as [|x [|y pre]]; simpl in Ht; try discriminate.
      * injection Ht as _ Ht. now subst c.
      * injection Ht as _ _ Ht. destruct pre; discriminate.
    + destruct (fixLoop env (S n) (S a) f _ f) as [r t] eqn:Hloop.
      simpl in Ht, Hs |- *.
      pose proof (fixLoop_sends n (S a) f
        (JS.or_else (validationError (validate_with (mermaid_parse env) f))
           "Unknown validation error") f) as Hne.
      rewrite Hloop in Hne. simpl in Hne.
      destruct (exists_last Hne) as (pre' & z & ->).
      change (Requested cur err a :: Validated f :: pre' ++ [z])%list
        with ((Requested cur err a :: Validated f :: pre') ++ [z])%list in Ht.
      apply app_inj_tail in Ht as [_ ->].
      exact (IH pre' c eq_refl Hs).
Qed.

End MoreFixerFacts.

Section MoreFixerFacts2.

Variable env : environment.

Lemma autoFixSyntax_trace_tail code :
  isValid (validate_with (mermaid_parse env) (applyDeterministicFixes code))
    = false ->
  autoFixSyntax env code =
  (fst (fixSyntax env (applyDeterministicFixes code)
          (JS.or_else
             (validationError
                (validate_with (mermaid_parse env)
                   (applyDeterministicFixes code)))
             "Unknown syntax error")),
   Validated (applyDeterministicFixes code)
     :: snd (fixSyntax env (applyDeterministicFixes code)
               (JS.or_else
                  (validationError
                     (validate_with (mermaid_parse env)
                        (applyDeterministicFixes code)))
                  "Unknown syntax error"))).
Proof.
  intros Hv. rewrite autoFixSyntax_step. cbv zeta. rewrite Hv.
  now destruct (fixSyntax env _ _).
Qed.

Lemma autoFixSyntax_attempts_le code :
  attempts (fst (autoFixSyntax env code)) <= MAX_FIX_ATTEMPTS.
Proof.
  rewrite autoFixSyntax_step. cbv zeta.
  destruct (isValid _); [simpl; lia|].
  unfold fixSyntax.
  pose proof (fixLoop_attempts env MAX_FIX_ATTEMPTS 1
    (applyDeterministicFixes code)
    (JS.or_else (validationError (validate_with (mermaid_parse env)
       (applyDeterministicFixes code))) "Unknown syntax error")
    (applyDeterministicFixes code)) as H.
  cbv zeta in H. destruct (fixLoop env MAX_FIX_ATTEMPTS 1 _ _ _) as [r t].
  unfold MAX_FIX_ATTEMPTS in *. simpl in *. lia.
Qed.

Lemma autoFixSyntax_success code :
  success (fst (autoFixSyntax env code)) = true ->
  mermaid_parse env (fixedCode (fst (autoFixSyntax env code))) = Returned /\
  error (fst (autoFixSyntax env code)) = None.
Proof.
  rewrite autoFixSyntax_step. cbv zeta.
  destruct (isValid _) eqn:Hv.
  - intros _. simpl. split; [now apply isValid_Returned | reflexivity].
  - unfold fixSyntax.
    pose proof (fixLoop_success env MAX_FIX_ATTEMPTS 1
      (applyDeterministicFixes code)
      (JS.or_else (validationError (validate_with (mermaid_parse env)
         (applyDeterministicFixes code))) "Unknown syntax error")
      (applyDeterministicFixes code)) as H.
    destruct (fixLoop env MAX_FIX_ATTEMPTS 1 _ _ _) as [r t].
    simpl in *. intros Hs. destruct (H Hs) as (H1 & H2 & _). now split.
Qed.

Lemma autoFixSyntax_attempts_requests code :
  attempts (fst (autoFixSyntax env code))
    = requests (snd (autoFixSyntax env code)).
Proof.
  rewrite autoFixSyntax_step. cbv zeta.
  destruct (isValid _); [reflexivity|].
  unfold fixSyntax.
  pose proof (fixLoop_attempts_requests env MAX_FIX_ATTEMPTS 1
    (applyDeterministicFixes code)
    (JS.or_else (validationError (validate_with (mermaid_parse env)
       (applyDeterministicFixes code))) "Unknown syntax error")
    (applyDeterministicFixes code) (le_n 1) eq_refl) as H.
  destruct (fixLoop env MAX_FIX_ATTEMPTS 1 _ _ _) as [r t].
  simpl in *. rewrite H. reflexivity.
Qed.

End MoreFixerFacts2.

Module MoreChannelFacts.
Import Channel.

Lemma dispatch_idle st ev :
  listening st = false -> armed st = false -> dispatch st ev = st.
Proof. intros Hl Ha. destruct ev; simpl; now rewrite ?Hl, ?Ha. Qed.

Lemma run_idle evs st :
  listening st = false -> armed st = false -> run evs st = st.
Proof.
  intros Hl Ha. induction evs as [|ev evs IH]; [reflexivity|].
  simpl. now rewrite dispatch_idle.
Qed.

End MoreChannelFacts.

(* ===================================================================== *)
(** ** Further properties of the request channel *)
(* ===================================================================== *)

(** X1. The promise of [requestLLMFix] settles with the first message of
    type [mermaidFixResponse] that carries the call's [requestId]:
    messages of another type or for another request that arrive before it
    are ignored, and so is whatever arrives after it.  A response with
    [success] resolves with its [fixedCode]; any other rejects with its
    [error], or with [LLM fix failed] when the error is missing or
    empty. *)
Theorem requestLLMFix_settles_with_first_response
    (requestId code error : string) (attempt maxAttempts : nat)
    (before after : list Channel.event) (m : Channel.message) :
  forallb (Channel.unrelated requestId) before = true ->
  Channel.type m = "mermaidFixResponse" ->
  Channel.requestId m = requestId ->
  Channel.promise
    (Channel.run (before ++ Channel.Incoming m :: after)
       (Channel.start requestId code error attempt maxAttempts))
  = Some (if Channel.success m then Channel.Resolved (Channel.fixedCode m)
          else Channel.Rejected
                 (JS.or_else (Channel.error m) "LLM fix failed")).
Proof.
  intros Hb Ht Hid.
  rewrite ChannelFacts.run_app, (ChannelFacts.run_unrelated before)
    by exact Hb.
  unfold Channel.run. cbn [fold_left]. fold (Channel.run after).
  apply ChannelFacts.promise_stable_run.
  simpl. unfold Channel.messageListener. simpl.
  rewrite Ht, Hid, !String.eqb_refl. simpl.
  now destruct (Channel.success m).
Qed.

Lemma requestLLMFix_settles_with_first_response_witness :
  forallb (Channel.unrelated (Scenario.tag 1))
    [Scenario.response 8 true (Some "x") None] = true /\
  Channel.promise
    (Channel.run
       ([Scenario.response 8 true (Some "x") None]
        ++ Channel.Incoming
             {| Channel.type := "mermaidFixResponse";
                Channel.requestId := Scenario.tag 1;
                Channel.success := false;
                Channel.fixedCode := None;
                Channel.error := Some "" |}
           :: [Channel.TimerElapsed;
               Scenario.response 1 true (Some "late") None])
       (Channel.start (Scenario.tag 1) "A" "Parse error" 1 2))
  = Some (Channel.Rejected "LLM fix failed").
Proof.
  split; [reflexivity|].
  exact (requestLLMFix_settles_with_first_response (Scenario.tag 1)
           "A" "Parse error" 1 2
           [Scenario.response 8 true (Some "x") None]
           [Channel.TimerElapsed; Scenario.response 1 true (Some "late") None]
           {| Channel.type := "mermaidFixResponse";
              Channel.requestId := Scenario.tag 1;
              Channel.success := false;
              Channel.fixedCode := None;
              Channel.error := Some "" |}
           eq_refl eq_refl eq_refl).
Defined.

(** X2. Once the promise of a call has settled, nothing that reaches the
    window changes the call any more: no second settlement, no further
    [clearTimeout] or [removeEventListener], whatever the later events
    are. *)
Theorem requestLLMFix_is_inert_once_settled
    (requestId code error : string) (attempt maxAttempts : nat)
    (evs later : list Channel.event) (r : Channel.settlement) :
  Channel.promise
    (Channel.run evs (Channel.start requestId code error attempt maxAttempts))
  = Some r ->
  Channel.run (evs ++ later)
    (Channel.start requestId code error attempt maxAttempts)
  = Channel.run evs
      (Channel.start requestId code error attempt maxAttempts).
Proof.
  intros Hp. rewrite ChannelFacts.run_app.
  pose proof (ChannelFacts.shape_run _ evs _
                (ChannelFacts.shape_start requestId code error attempt
                   maxAttempts)) as H.
  unfold Channel.shape in H. rewrite Hp in H. destruct H as (Hl & Ha & _).
  now apply MoreChannelFacts.run_idle.
Qed.

Lemma requestLLMFix_is_inert_once_settled_witness :
  Channel.promise
    (Channel.run [Channel.TimerElapsed]
       (Channel.start (Scenario.tag 1) "A" "Parse error" 1 2))
  = Some (Channel.Rejected "LLM fix request timed out") /\
  Channel.run
    ([Channel.TimerElapsed]
     ++ [Scenario.response 1 true (Some "late") None; Channel.TimerElapsed])
    (Channel.start (Scenario.tag 1) "A" "Parse error" 1 2)
  = Channel.run [Channel.TimerElapsed]
      (Channel.start (Scenario.tag 1) "A" "Parse error" 1 2).
Proof.
  split; [reflexivity|].
  exact (requestLLMFix_is_inert_once_settled (Scenario.tag 1)
           "A" "Parse error" 1 2 [Channel.TimerElapsed]
           [Scenario.response 1 true (Some "late") None; Channel.TimerElapsed]
           (Channel.Rejected "LLM fix request timed out") eq_refl).
Defined.

(* ===================================================================== *)
(** ** Further properties of the fix loop *)
(* ===================================================================== *)

(** X3. When [autoFixSyntax] returns [success: true], the parser has
    accepted the very text it reports as [fixedCode], that text is the
    last one given to [validateSyntax], and the result carries no
    error. *)
Theorem autoFixSyntax_success_is_validated
    (env : environment) (code : string) :
  success (fst (autoFixSyntax env code)) = true ->
  mermaid_parse env (fixedCode (fst (autoFixSyntax env code))) = Returned /\
  last_validated (snd (autoFixSyntax env code)) None
    = Some (fixedCode (fst (autoFixSyntax env code))) /\
  error (fst (autoFixSyntax env code)) = None.
Proof.
  intros Hs. destruct (autoFixSyntax_success env code Hs) as [Hp He].
  repeat split; [exact Hp | | exact He].
  rewrite autoFixSyntax_step. cbv zeta.
  destruct (isValid _); [reflexivity|].
  unfold fixSyntax.
  pose proof (fixLoop_last_validated env MAX_FIX_ATTEMPTS 1
    (applyDeterministicFixes code)
    (JS.or_else (validationError (validate_with (mermaid_parse env)
       (applyDeterministicFixes code))) "Unknown syntax error")) as Hlast.
  destruct (fixLoop env MAX_FIX_ATTEMPTS 1 _ _ _) as [r t]. exact Hlast.
Qed.

Lemma autoFixSyntax_success_is_validated_witness :
  let env := Scenario.scripted (Scenario.accepts "A --> B")
               (Scenario.always "A --> B") in
  success (fst (autoFixSyntax env "A -> B")) = true /\
  Scenario.accepts "A --> B" (fixedCode (fst (autoFixSyntax env "A -> B")))
    = Returned.
Proof.
  intros env.
  assert (Hs : success (fst (autoFixSyntax env "A -> B")) = true)
    by reflexivity.
  split; [exact Hs|].
  exact (proj1 (autoFixSyntax_success_is_validated env "A -> B" Hs)).
Defined.

(** X4. The [attempts] of the result of [autoFixSyntax] is the number of
    requests the sequence has sent to the assistant. *)
Theorem autoFixSyntax_attempts_counts_requests
    (env : environment) (code : string) :
  attempts (fst (autoFixSyntax env code))
    = requests (snd (autoFixSyntax env code)).
Proof. apply autoFixSyntax_attempts_requests. Qed.

(** X5. Requests are strictly sequential.  Every request of
    [autoFixSyntax] comes right after the validation of the text it
    sends, which the parser rejected; it carries the error of that
    validation, or the default text when that error is empty
    ([Unknown syntax error] for the first request,
    [Unknown validation error] for the later ones); and its attempt
    number is one more than the number of requests sent before it. *)
Theorem autoFixSyntax_requests_follow_validation
    (env : environment) (code : string)
    (pre post : list io_event) (c e : string) (k : nat) :
  snd (autoFixSyntax env code) = (pre ++ Requested c e k :: post)%list ->
  (exists pre', pre = (pre' ++ [Validated c])%list) /\
  isValid (validate_with (mermaid_parse env) c) = false /\
  e = JS.or_else (validationError (validate_with (mermaid_parse env) c))
        (if Nat.eqb k 1 then "Unknown syntax error"
         else "Unknown validation error") /\
  k = S (requests pre).
Proof.
  intros Ht.
  destruct (isValid (validate_with (mermaid_parse env)
                       (applyDeterministicFixes code))) eqn:Hv.
  - rewrite autoFixSyntax_step in Ht. cbv zeta in Ht. rewrite Hv in Ht.
    simpl in Ht. destruct pre as [|? [|? ?]]; discriminate.
  - rewrite (autoFixSyntax_trace_tail env code Hv) in Ht. simpl in Ht.
    destruct pre as [|x pre]; [discriminate|].
    injection Ht as <- Ht. unfold fixSyntax in Ht.
    destruct (fixLoop_request_shape env _ _ _ _ _ _ _ _ _ Ht)
      as [(-> & -> & -> & ->) | (pre' & -> & Hc & He & Hk & Hr)].
    + repeat split; auto. now exists [].
    + unfold requests in *. simpl in *.
      repeat split; auto.
      * now exists (Validated (applyDeterministicFixes code) :: pre').
      * subst k. destruct (List.length _); [lia | exact He].
Qed.

Lemma autoFixSyntax_requests_follow_validation_witness :
  let env := Scenario.scripted Scenario.rejects (Scenario.always "B") in
  snd (autoFixSyntax env "A")
    = ([Validated "A"; Requested "A" "Parse error" 1; Validated "B"]
       ++ Requested "B" "Parse error" 2 :: [Validated "B"])%list /\
  isValid (validate_with (mermaid_parse env) "B") = false /\
  2 = S (requests [Validated "A"; Requested "A" "Parse error" 1;
                   Validated "B"]).
Proof.
  intros env.
  assert (Ht : snd (autoFixSyntax env "A")
    = ([Validated "A"; Requested "A" "Parse error" 1; Validated "B"]
       ++ Requested "B" "Parse error" 2 :: [Validated "B"])%list)
    by reflexivity.
  split; [exact Ht|].
  destruct (autoFixSyntax_requests_follow_validation env "A" _ _ _ _ _ Ht)
    as (_ & Hv & _ & Hk).
  split; [exact Hv | exact Hk].
Defined.

(** X6. When the deterministically fixed input does not validate and no
    response addressed to the first request arrives, [autoFixSyntax]
    validates once, sends one request and returns [success: false] with
    the deterministically fixed input as [fixedCode], [attempts: 1] and
    the error [LLM fix request timed out]. *)
Theorem autoFixSyntax_times_out (env : environment) (code : string) :
  let d := applyDeterministicFixes code in
  let e := JS.or_else (validationError (validate_with (mermaid_parse env) d))
             "Unknown syntax error" in
  isValid (validate_with (mermaid_parse env) d) = false ->
  forallb (Channel.unrelated (draw_id env d e 1)) (inbox env d e 1) = true ->
  autoFixSyntax env code =
  ({| success := false; fixedCode := d;
      error := Some "LLM fix request timed out"; attempts := 1 |},
   [Validated d; Requested d e 1]).
Proof.
  intros d e Hv Hin.
  rewrite (autoFixSyntax_trace_tail env code Hv). fold d. fold e.
  unfold fixSyntax. change MAX_FIX_ATTEMPTS with 2.
  rewrite fixLoop_step. cbv zeta.
  unfold settlement_of.
  rewrite (ChannelFacts.await_timeout _ _ _ _ _ _ Hin). reflexivity.
Qed.

Lemma autoFixSyntax_times_out_witness :
  let env := Scenario.scripted Scenario.rejects Scenario.silent in
  isValid (validate_with (mermaid_parse env)
             (applyDeterministicFixes "A --&gt;")) = false /\
  autoFixSyntax env "A --&gt;" =
  ({| success := false; fixedCode := "A -->";
      error := Some "LLM fix request timed out"; attempts := 1 |},
   [Validated "A -->"; Requested "A -->" "Parse error" 1]).
Proof.
  intros env. split; [reflexivity|].
  exact (autoFixSyntax_times_out env "A --&gt;" eq_refl eq_refl).
Defined.

(** X7. When [autoFixSyntax] fails and the last thing it did was to
    validate a text, it has used all its attempts: it reports that text
    with [attempts: 2], and its error is
    [Failed to fix syntax after 2 attempts. Last error: ] followed by the
    error of that last validation ([Unknown validation error] when that
    error is empty). *)
Theorem autoFixSyntax_exhausted
    (env : environment) (code : string) (pre : list io_event) (c : string) :
  success (fst (autoFixSyntax env code)) = false ->
  snd (autoFixSyntax env code) = (pre ++ [Validated c])%list ->
  fst (autoFixSyntax env code) =
    {| success := false; fixedCode := c;
       error := Some ("Failed to fix syntax after 2 attempts. Last error: "
                      ++ JS.or_else
                           (validationError
                              (validate_with (mermaid_parse env) c))
                           "Unknown validation error");
       attempts := 2 |} /\
  requests (snd (autoFixSyntax env code)) = 2.
Proof.
  intros Hs Ht.
  assert (Hr : fst (autoFixSyntax env code) =
    {| success := false; fixedCode := c;
       error := Some ("Failed to fix syntax after 2 attempts. Last error: "
                      ++ JS.or_else
                           (validationError
                              (validate_with (mermaid_parse env) c))
                           "Unknown validation error");
       attempts := 2 |}).
  { destruct (isValid (validate_with (mermaid_parse env)
                         (applyDeterministicFixes code))) eqn:Hv.
    - rewrite autoFixSyntax_step in Hs. cbv zeta in Hs. rewrite Hv in Hs.
      discriminate.
    - rewrite (autoFixSyntax_trace_tail env code Hv) in Hs, Ht |- *.
      simpl in Hs, Ht |- *. unfold fixSyntax in *.
      pose proof (fixLoop_sends env 1 1 (applyDeterministicFixes code)
        (JS.or_else (validationError (validate_with (mermaid_parse env)
           (applyDeterministicFixes code))) "Unknown syntax error")
        (applyDeterministicFixes code)) as Hne.
      change 2 with MAX_FIX_ATTEMPTS in Hne.
      destruct (exists_last Hne) as (pre' & z & Hz).
      rewrite Hz in Ht.
      change (Validated (applyDeterministicFixes code) :: pre' ++ [z])%list
        with ((Validated (applyDeterministicFixes code) :: pre') ++ [z])%list
        in Ht.
      apply app_inj_tail in Ht as [_ ->].
      exact (fixLoop_exhausted env _ _ _ _ _ _ Hz Hs). }
  split; [exact Hr|].
  rewrite <- autoFixSyntax_attempts_requests. now rewrite Hr.
Qed.

Lemma autoFixSyntax_exhausted_witness :
  let env := Scenario.scripted Scenario.rejects (Scenario.always "B") in
  success (fst (autoFixSyntax env "A")) = false /\
  snd (autoFixSyntax env "A")
    = ([Validated "A"; Requested "A" "Parse error" 1; Validated "B";
        Requested "B" "Parse error" 2] ++ [Validated "B"])%list /\
  fst (autoFixSyntax env "A") =
    {| success := false; fixedCode := "B";
       error := Some "Failed to fix syntax after 2 attempts. Last error: Parse error";
       attempts := 2 |}.
Proof.
  intros env.
  assert (Hs : success (fst (autoFixSyntax env "A")) = false) by reflexivity.
  assert (Ht : snd (autoFixSyntax env "A")
    = ([Validated "A"; Requested "A" "Parse error" 1; Validated "B";
        Requested "B" "Parse error" 2] ++ [Validated "B"])%list)
    by reflexivity.
  split; [exact Hs | split; [exact Ht|]].
  exact (proj1 (autoFixSyntax_exhausted env "A" _ "B" Hs Ht)).
Defined.

(** X8. A text that holds no [--&gt;] and that the parser accepts passes
    through [autoFixSyntax] unchanged: one validation, no request to the
    assistant, [success: true] with [attempts: 0] and the text itself as
    [fixedCode]. *)
Theorem autoFixSyntax_leaves_valid_input
    (env : environment) (code : string) :
  JS.includes ARROW_ENTITY code = false ->
  mermaid_parse env code = Returned ->
  autoFixSyntax env code =
  ({| success := true; fixedCode := code; error := None; attempts := 0 |},
   [Validated code]).
Proof.
  intros Hfree Hok. rewrite autoFixSyntax_step. cbv zeta.
  rewrite (applyDeterministicFixes_noop code Hfree).
  now rewrite (proj2 (isValid_Returned (mermaid_parse env) code) Hok).
Qed.

Lemma autoFixSyntax_leaves_valid_input_witness :
  let env := Scenario.scripted (Scenario.accepts "A --> B") Scenario.silent in
  JS.includes ARROW_ENTITY "A --> B" = false /\
  mermaid_parse env "A --> B" = Returned /\
  autoFixSyntax env "A --> B" =
  ({| success := true; fixedCode := "A --> B"; error := None;
      attempts := 0 |}, [Validated "A --> B"]).
Proof.
  intros env. split; [reflexivity | split; [reflexivity|]].
  exact (autoFixSyntax_leaves_valid_input env "A --> B" eq_refl eq_refl).
Defined.

(* ===================================================================== *)
(** ** Further facts about the component *)
(* ===================================================================== *)

Module MoreMermaidBlockFacts.
Import MermaidBlock.

Lemma consistent_mount c : consistent (mount c).
Proof. unfold consistent. simpl. repeat split; lia. Qed.

Lemma consistent_step st ev : consistent st -> consistent (step st ev).
Proof.
  intros [H1 H2]. destruct ev as [env mermaid_render | env | newCode]; simpl.
  - destruct (scheduled st); [|now split].
    unfold renderMermaid. cbn -[autoFixSyntax].
    destruct (match mermaid_parse env (currentCode st) with
              | Returned => mermaid_render (currentCode st)
              | ThrewError message => ThrewError message
              | ThrewOther => ThrewOther
              end) as [|message|].
    1: { destruct (negb (isFixing st)); now split. }
    all: destruct (negb (hasAutoFixed st) && (currentCode st =? code st)
                   && negb (isFixing st));
      [|destruct (negb (isFixing st)); now split].
    all: pose proof (autoFixSyntax_attempts_le env (currentCode st)) as Hle.
    all: destruct (autoFixSyntax env (currentCode st)) as [fixResult trace].
    all: simpl in Hle.
    all: destruct (success fixResult && JS.truthy (fixedCode fixResult)
                   && negb (fixedCode fixResult =? currentCode st));
      destruct (negb (isFixing st)); unfold consistent; cbn;
      (split; [first [discriminate | exact H1] | first [exact Hle | exact H2]]).
  - unfold handleManualFix. destruct (isFixing st); [now split|].
    pose proof (autoFixSyntax_attempts_le env (code st)) as Hle.
    destruct (autoFixSyntax env (code st)) as [fixResult trace].
    simpl in Hle.
    destruct (success fixResult && JS.truthy (fixedCode fixResult));
      unfold consistent; cbn;
      (split; [first [discriminate | exact H1] | first [exact Hle | exact H2]]).
  - destruct (newCode =? code st); [now split|].
    unfold consistent. cbn. repeat split; lia.
Qed.

Lemma consistent_run evs : forall st, consistent st -> consistent (run evs st).
Proof.
  induction evs as [|ev evs IH]; intros st H; [exact H|].
  simpl. apply IH. now apply consistent_step.
Qed.

(** With a fix adopted, an event that keeps the source leaves the flag, the
    source and the counters of automatic fixing as they are. *)
Lemma fixed_step st ev :
  hasAutoFixed st = true -> keeps_source (code st) ev ->
  hasAutoFixed (step st ev) = true /\ code (step st ev) = code st /\
  autoFixCalls (step st ev) = autoFixCalls st /\
  autoRequests (step st ev) = autoRequests st.
Proof.
  intros Hh Hk. destruct ev as [env mermaid_render | env | newCode]; simpl.
  - destruct (scheduled st); [|auto].
    unfold renderMermaid. cbn -[autoFixSyntax]. rewrite Hh. cbn -[autoFixSyntax].
    destruct (match mermaid_parse env (currentCode st) with
              | Returned => mermaid_render (currentCode st)
              | ThrewError message => ThrewError message
              | ThrewOther => ThrewOther
              end); destruct (negb (isFixing st)); cbn; auto.
  - unfold handleManualFix. destruct (isFixing st); [auto|].
    destruct (autoFixSyntax env (code st)) as [fixResult trace].
    destruct (success fixResult && JS.truthy (fixedCode fixResult));
      cbn; auto.
  - simpl in Hk. subst newCode. rewrite String.eqb_refl. auto.
Qed.

End MoreMermaidBlockFacts.

(* ===================================================================== *)
(** ** Further properties of the component *)
(* ===================================================================== *)

(** X9. Whatever happens to the component (debounce timers, manual fixes,
    changes of the [code] prop), as long as no fix has been adopted its
    working copy [currentCode] is the authored [code] and [fixAttempts] is
    0, and the [fixAttempts] it shows never exceeds [MAX_FIX_ATTEMPTS]. *)
Theorem MermaidBlock_state_is_consistent
    (c : string) (evs : list MermaidBlock.event) :
  let st := MermaidBlock.run evs (MermaidBlock.mount c) in
  (MermaidBlock.hasAutoFixed st = false ->
   MermaidBlock.currentCode st = MermaidBlock.code st /\
   MermaidBlock.fixAttempts st = 0) /\
  MermaidBlock.fixAttempts st <= MAX_FIX_ATTEMPTS.
Proof.
  exact (MoreMermaidBlockFacts.consistent_run evs _
           (MoreMermaidBlockFacts.consistent_mount c)).
Qed.

Lemma MermaidBlock_state_is_consistent_witness :
  let env := Scenario.scripted Scenario.rejects Scenario.silent in
  let st := MermaidBlock.run
              [MermaidBlock.DebounceElapsed env Scenario.rejects;
               MermaidBlock.SetCode "B"; MermaidBlock.ClickFix env]
              (MermaidBlock.mount "A") in
  MermaidBlock.hasAutoFixed st = false /\
  MermaidBlock.currentCode st = MermaidBlock.code st /\
  MermaidBlock.fixAttempts st = 0.
Proof.
  intros env st. split; [reflexivity|].
  exact (proj1 (MermaidBlock_state_is_consistent "A"
                  [MermaidBlock.DebounceElapsed env Scenario.rejects;
                   MermaidBlock.SetCode "B"; MermaidBlock.ClickFix env])
           eq_refl).
Defined.

(** X10. When a render cycle adopts a fix, the adopted text is one the
    parser accepted, it differs from the authored source the cycle
    started from, a new render cycle is scheduled for it, and the cycle
    has called [autoFixSyntax] once. *)
Theorem renderMermaid_adopts_validated_fix
    (st : MermaidBlock.state) (env : environment)
    (mermaid_render : string -> outcome) :
  MermaidBlock.hasAutoFixed st = false ->
  let st' := MermaidBlock.step st
               (MermaidBlock.DebounceElapsed env mermaid_render) in
  MermaidBlock.hasAutoFixed st' = true ->
  mermaid_parse env (MermaidBlock.currentCode st') = Returned /\
  MermaidBlock.currentCode st = MermaidBlock.code st /\
  MermaidBlock.currentCode st' <> MermaidBlock.code st /\
  MermaidBlock.code st' = MermaidBlock.code st /\
  MermaidBlock.scheduled st' = true /\
  MermaidBlock.autoFixCalls st' = S (MermaidBlock.autoFixCalls st).
Proof.
  intros Hh st' Hh'. subst st'. simpl in *.
  destruct (MermaidBlock.scheduled st); [|congruence].
  unfold MermaidBlock.renderMermaid in *.
  cbn -[autoFixSyntax] in *. rewrite Hh in *. cbn -[autoFixSyntax] in *.
  destruct (match mermaid_parse env (MermaidBlock.currentCode st) with
            | Returned => mermaid_render (MermaidBlock.currentCode st)
            | ThrewError message => ThrewError message
            | ThrewOther => ThrewOther
            end) as [|message|].
  1: { destruct (negb (MermaidBlock.isFixing st)); cbn in Hh'; congruence. }
  all: destruct (String.eqb_spec (MermaidBlock.currentCode st)
                   (MermaidBlock.code st)) as [Heq|Hneq];
    cbn -[autoFixSyntax] in *;
    [|destruct (negb (MermaidBlock.isFixing st)); cbn in Hh'; congruence].
  all: destruct (negb (MermaidBlock.isFixing st)) eqn:Hf;
    cbn -[autoFixSyntax] in *; [|cbn in Hh'; congruence].
  all: pose proof (autoFixSyntax_success env (MermaidBlock.currentCode st))
    as Hok.
  all: destruct (autoFixSyntax env (MermaidBlock.currentCode st))
    as [fixResult trace].
  all: simpl in Hok.
  all: destruct (success fixResult) eqn:Hs; cbn in *; [|congruence].
  all: destruct (JS.truthy (fixedCode fixResult)); cbn in *; [|congruence].
  all: destruct (String.eqb_spec (fixedCode fixResult)
                   (MermaidBlock.currentCode st)) as [Hsame|Hdiff];
    cbn in *; [congruence|].
  all: destruct (Hok eq_refl) as [Hp _].
  all: unfold MermaidBlock.useDebounceEffect.
  all: destruct (String.eqb_spec (fixedCode fixResult)
                   (MermaidBlock.currentCode st)); [congruence|].
  all: repeat split; auto; congruence.
Qed.

Lemma renderMermaid_adopts_validated_fix_witness :
  let env := Scenario.scripted (Scenario.accepts "A --> B")
               (Scenario.always "A --> B") in
  let st' := MermaidBlock.step (MermaidBlock.mount "A -> B")
               (MermaidBlock.DebounceElapsed env Scenario.rejects) in
  MermaidBlock.hasAutoFixed (MermaidBlock.mount "A -> B") = false /\
  MermaidBlock.hasAutoFixed st' = true /\
  mermaid_parse env (MermaidBlock.currentCode st') = Returned /\
  MermaidBlock.scheduled st' = true.
Proof.
  intros env st'.
  split; [reflexivity | split; [reflexivity|]].
  destruct (renderMermaid_adopts_validated_fix (MermaidBlock.mount "A -> B")
              env Scenario.rejects eq_refl eq_refl)
    as (Hp & _ & _ & _ & Hs & _).
  split; [exact Hp | exact Hs].
Defined.

(** X11. Once a fix has been adopted, no event that keeps the [code] prop
    makes the render effect call [autoFixSyntax] again, from whatever state
    the component is in: the flag stays set and the counters of automatic
    fixing stay as they are. *)
Theorem no_automatic_fix_once_adopted
    (evs : list MermaidBlock.event) (st : MermaidBlock.state) :
  MermaidBlock.hasAutoFixed st = true ->
  Forall (MermaidBlock.keeps_source (MermaidBlock.code st)) evs ->
  MermaidBlock.hasAutoFixed (MermaidBlock.run evs st) = true /\
  MermaidBlock.autoFixCalls (MermaidBlock.run evs st)
    = MermaidBlock.autoFixCalls st /\
  MermaidBlock.autoRequests (MermaidBlock.run evs st)
    = MermaidBlock.autoRequests st.
Proof.
  revert st. induction evs as [|ev evs IH]; intros st Hh Hall; [now auto|].
  inversion Hall as [|? ? Hev Hevs]; subst.
  destruct (MoreMermaidBlockFacts.fixed_step st ev Hh Hev)
    as (Hh' & Hc & Hcalls & Hreq).
  simpl. rewrite <- Hc in Hevs.
  destruct (IH _ Hh' Hevs) as (H1 & H2 & H3).
  repeat split; congruence.
Qed.

Lemma no_automatic_fix_once_adopted_witness :
  let env := Scenario.scripted (Scenario.accepts "A --> B")
               (Scenario.always "A --> B") in
  let st := MermaidBlock.step (MermaidBlock.mount "A -> B")
              (MermaidBlock.DebounceElapsed env Scenario.rejects) in
  let evs := [MermaidBlock.DebounceElapsed env Scenario.rejects;
              MermaidBlock.ClickFix env;
              MermaidBlock.DebounceElapsed env Scenario.rejects] in
  MermaidBlock.hasAutoFixed st = true /\
  Forall (MermaidBlock.keeps_source (MermaidBlock.code st)) evs /\
  MermaidBlock.autoFixCalls (MermaidBlock.run evs st) = 1.
Proof.
  intros env st evs.
  assert (Hh : MermaidBlock.hasAutoFixed st = true) by reflexivity.
  assert (Hall : Forall (MermaidBlock.keeps_source (MermaidBlock.code st)) evs)
    by (repeat constructor).
  split; [exact Hh | split; [exact Hall|]].
  exact (proj1 (proj2 (no_automatic_fix_once_adopted evs st Hh Hall))).
Defined.

(** X12. A manual fix that is not already in flight ends in one of two
    ways.  Either it adopts the text returned by [autoFixSyntax] on the
    authored [code]: a non-empty text that the parser accepted, with the
    error cleared.  Or it changes neither the working copy nor the
    auto-fix flag and shows a non-empty error.  In both cases [isFixing]
    is released. *)
Theorem handleManualFix_outcome
    (env : environment) (st : MermaidBlock.state) :
  MermaidBlock.isFixing st = false ->
  let st' := MermaidBlock.handleManualFix env st in
  MermaidBlock.isFixing st' = false /\
  ((MermaidBlock.hasAutoFixed st' = true /\
    MermaidBlock.currentCode st'
      = fixedCode (fst (autoFixSyntax env (MermaidBlock.code st))) /\
    mermaid_parse env (MermaidBlock.currentCode st') = Returned /\
    MermaidBlock.currentCode st' <> "" /\
    MermaidBlock.error st' = None) \/
   (MermaidBlock.currentCode st' = MermaidBlock.currentCode st /\
    MermaidBlock.hasAutoFixed st' = MermaidBlock.hasAutoFixed st /\
    exists message,
      MermaidBlock.error st' = Some message /\ message <> "")).
Proof.
  intros Hf st'. subst st'. unfold MermaidBlock.handleManualFix.
  rewrite Hf.
  pose proof (autoFixSyntax_success env (MermaidBlock.code st)) as Hok.
  destruct (autoFixSyntax env (MermaidBlock.code st)) as [fixResult trace].
  simpl in Hok |- *.
  destruct (success fixResult) eqn:Hs; cbn.
  - destruct (JS.truthy (fixedCode fixResult)) eqn:Ht; cbn.
    + split; [reflexivity | left].
      destruct (Hok eq_refl) as [Hp _].
      repeat split; auto. intros Hempty. rewrite Hempty in Ht. discriminate.
    + split; [reflexivity | right]. repeat split.
      eexists. split; [reflexivity|].
      destruct (error fixResult) as [[|? ?]|]; discriminate.
  - split; [reflexivity | right]. repeat split.
    eexists. split; [reflexivity|].
    destruct (error fixResult) as [[|? ?]|]; discriminate.
Qed.

Lemma handleManualFix_outcome_witness :
  let env := Scenario.scripted Scenario.rejects Scenario.silent in
  let st' := MermaidBlock.handleManualFix env (MermaidBlock.mount "A") in
  MermaidBlock.isFixing (MermaidBlock.mount "A") = false /\
  MermaidBlock.isFixing st' = false /\
  MermaidBlock.error st' = Some "LLM fix request timed out".
Proof.
  intros env st'. split; [reflexivity|].
  split; [|reflexivity].
  exact (proj1 (handleManualFix_outcome env (MermaidBlock.mount "A") eq_refl)).
Defined.

(** X13. A scheduled render cycle that starts while no fix is in flight
    always ends with [isLoading] released.  When [mermaid.parse] and
    [mermaid.render] return, it clears the error, calls [autoFixSyntax]
    not at all and keeps the working copy.  When one of them throws, it
    either adopts a fix, leaving the error as it was, or keeps the working
    copy and shows the message of what was thrown (not the error of the
    fixer), [Failed to render Mermaid diagram] when the thrown value is not
    an [Error]. *)
Theorem renderMermaid_outcome
    (st : MermaidBlock.state) (env : environment)
    (mermaid_render : string -> outcome) :
  MermaidBlock.scheduled st = true ->
  MermaidBlock.isFixing st = false ->
  let o := render_outcome env mermaid_render (MermaidBlock.currentCode st) in
  let st' := MermaidBlock.step st
               (MermaidBlock.DebounceElapsed env mermaid_render) in
  MermaidBlock.isLoading st' = false /\
  MermaidBlock.isFixing st' = false /\
  (o = Returned ->
   MermaidBlock.error st' = None /\
   MermaidBlock.autoFixCalls st' = MermaidBlock.autoFixCalls st /\
   MermaidBlock.currentCode st' = MermaidBlock.currentCode st /\
   MermaidBlock.hasAutoFixed st' = MermaidBlock.hasAutoFixed st) /\
  (o <> Returned ->
   (MermaidBlock.hasAutoFixed st = false /\
    MermaidBlock.hasAutoFixed st' = true /\
    MermaidBlock.error st' = MermaidBlock.error st) \/
   (MermaidBlock.error st' = Some (MermaidBlock.errorMessage_of o) /\
    MermaidBlock.currentCode st' = MermaidBlock.currentCode st /\
    MermaidBlock.hasAutoFixed st' = MermaidBlock.hasAutoFixed st)).
Proof.
  intros Hsched Hf o st'. subst o st'. simpl. rewrite Hsched.
  unfold MermaidBlock.renderMermaid, render_outcome.
  cbn -[autoFixSyntax]. rewrite Hf. cbn -[autoFixSyntax].
  destruct (match mermaid_parse env (MermaidBlock.currentCode st) with
            | Returned => mermaid_render (MermaidBlock.currentCode st)
            | ThrewError message => ThrewError message
            | ThrewOther => ThrewOther
            end) as [|message|].
  1: { cbn. repeat split; auto. congruence. }
  all: destruct (negb (MermaidBlock.hasAutoFixed st)
                 && (MermaidBlock.currentCode st =? MermaidBlock.code st)
                 && true) eqn:Hguard;
    [|cbn; repeat split; auto; discriminate].
  all: assert (Hh : MermaidBlock.hasAutoFixed st = false)
    by (destruct (MermaidBlock.hasAutoFixed st); [discriminate | reflexivity]).
  all: destruct (autoFixSyntax env (MermaidBlock.currentCode st))
    as [fixResult trace].
  all: destruct (success fixResult && JS.truthy (fixedCode fixResult)
                 && negb (fixedCode fixResult =? MermaidBlock.currentCode st));
    cbn; repeat split; auto; discriminate.
Qed.

Lemma renderMermaid_outcome_witness :
  let env := Scenario.scripted Scenario.rejects Scenario.silent in
  let st := MermaidBlock.mount "A" in
  let st' := MermaidBlock.step st
               (MermaidBlock.DebounceElapsed env Scenario.rejects) in
  MermaidBlock.scheduled st = true /\
  MermaidBlock.isFixing st = false /\
  MermaidBlock.isLoading st' = false /\
  MermaidBlock.error st' = Some "Parse error".
Proof.
  intros env st st'.
  split; [reflexivity | split; [reflexivity|]].
  split; [|reflexivity].
  exact (proj1 (renderMermaid_outcome st env Scenario.rejects
                  eq_refl eq_refl)).
Defined.

(* ===================================================================== *)
(** ** Facts about the other versions of [autoFixSyntax] *)
(* ===================================================================== *)

Lemma normalized_applyDeterministicFixes c :
  normalized (applyDeterministicFixes c).
Proof. apply applyDeterministicFixes_idempotent. Qed.

Section VariantFacts.

Variable env : environment.

Lemma InlineLoop_fixLoop_step n a cur err best :
  InlineLoop.fixLoop env (S n) a cur err best =
  let noFix := {| success := false; fixedCode := best;
                  error := Some "LLM failed to provide a fix";
                  attempts := a |} in
  match settlement_of env cur err a with
  | Channel.Rejected message =>
      ({| success := false; fixedCode := best; error := Some message;
          attempts := a |}, [Requested cur err a])
  | Channel.Resolved None => (noFix, [Requested cur err a])
  | Channel.Resolved (Some f) =>
      if negb (JS.truthy f) then (noFix, [Requested cur err a])
      else
        let d := applyDeterministicFixes f in
        if isValid (validate_with (mermaid_parse env) d) then
          ({| success := true; fixedCode := d; error := None;
              attempts := a |},
           [Requested cur err a; Validated d])
        else
          let (r, t) :=
            InlineLoop.fixLoop env n (S a) d
              (JS.or_else
                 (validationError (validate_with (mermaid_parse env) d))
                 "Unknown validation error") d in
          (r, Requested cur err a :: Validated d :: t)
  end.
Proof.
  cbn [InlineLoop.fixLoop]. unfold requestLLMFix, bind, ret, validateSyntax.
  destruct (settlement_of env cur err a) as [[f|]|message]; try reflexivity.
  destruct (negb (JS.truthy f)); [reflexivity|]. cbv zeta.
  destruct (isValid (validate_with (mermaid_parse env)
                       (applyDeterministicFixes f))); [reflexivity|].
  destruct (InlineLoop.fixLoop env n (S a) _ _ _). reflexivity.
Qed.

Lemma InlineLoop_autoFixSyntax_step code :
  InlineLoop.autoFixSyntax env code =
  let d := applyDeterministicFixes code in
  if isValid (validate_with (mermaid_parse env) d) then
    ({| success := true; fixedCode := d; error := None; attempts := 0 |},
     [Validated d])
  else
    let (r, t) :=
      InlineLoop.fixLoop env MAX_FIX_ATTEMPTS 1 d
        (JS.or_else (validationError (validate_with (mermaid_parse env) d))
           "Unknown syntax error") d in
    (r, Validated d :: t).
Proof.
  unfold InlineLoop.autoFixSyntax, bind, ret, validateSyntax. cbv zeta.
  destruct (isValid (validate_with (mermaid_parse env)
                       (applyDeterministicFixes code))); reflexivity.
Qed.

Lemma WhileLoop_loop_step n k raw :
  WhileLoop.loop env n k raw =
  let d := applyDeterministicFixes raw in
  if isValid (validate_with (mermaid_parse env) d) then
    ({| success := true; fixedCode := d; error := None; attempts := k |},
     [Validated d])
  else
    let e := JS.or_else (validationError (validate_with (mermaid_parse env) d))
               "Unknown syntax error" in
    match n with
    | 0 =>
        ({| success := false; fixedCode := d;
            error := Some ("Failed to fix syntax after "
                           ++ JS.digits MAX_FIX_ATTEMPTS
                           ++ " attempts. Last error: " ++ e);
            attempts := MAX_FIX_ATTEMPTS |}, [Validated d])
    | S n' =>
        let noFix := {| success := false; fixedCode := d;
                        error := Some "LLM failed to provide a fix";
                        attempts := S k |} in
        match settlement_of env d e (S k) with
        | Channel.Rejected message =>
            ({| success := false; fixedCode := d; error := Some message;
                attempts := S k |}, [Validated d; Requested d e (S k)])
        | Channel.Resolved None => (noFix, [Validated d; Requested d e (S k)])
        | Channel.Resolved (Some f) =>
            if negb (JS.truthy f) then
              (noFix, [Validated d; Requested d e (S k)])
            else
              let (r, t) := WhileLoop.loop env n' (S k) f in
              (r, Validated d :: Requested d e (S k) :: t)
        end
    end.
Proof.
  destruct n as [|n']; cbn [WhileLoop.loop];
    unfold requestLLMFix, bind, ret, validateSyntax; cbv zeta;
    destruct (isValid (validate_with (mermaid_parse env)
                         (applyDeterministicFixes raw))); try reflexivity.
  destruct (settlement_of env _ _ (S k)) as [[f|]|message]; try reflexivity.
  destruct (negb (JS.truthy f)); [reflexivity|].
  destruct (WhileLoop.loop env n' (S k) f). reflexivity.
Qed.

(** The inlined loop reports and handles normalized texts only. *)
Lemma InlineLoop_fixLoop_normalized n : forall a cur err,
  normalized cur ->
  normalized (fixedCode (fst (InlineLoop.fixLoop env n a cur err cur))) /\
  Forall normalized (texts (snd (InlineLoop.fixLoop env n a cur err cur))) /\
  (success (fst (InlineLoop.fixLoop env n a cur err cur)) = true ->
   mermaid_parse env
     (fixedCode (fst (InlineLoop.fixLoop env n a cur err cur))) = Returned) /\
  (attempts (fst (InlineLoop.fixLoop env n a cur err cur)) = MAX_FIX_ATTEMPTS \/
   (a <= attempts (fst (InlineLoop.fixLoop env n a cur err cur)) /\
    attempts (fst (InlineLoop.fixLoop env n a cur err cur)) < a + n)).
Proof.
  induction n as [|n IH]; intros a cur err Hcur.
  - simpl. repeat split; auto. discriminate.
  - rewrite InlineLoop_fixLoop_step. cbv zeta.
    destruct (settlement_of env cur err a) as [[f|]|message];
      try (simpl; repeat split; auto; [discriminate | right; lia]).
    destruct (negb (JS.truthy f));
      [simpl; repeat split; auto; [discriminate | right; lia]|].
    pose proof (normalized_applyDeterministicFixes f) as Hd.
    destruct (isValid (validate_with (mermaid_parse env)
                         (applyDeterministicFixes f))) eqn:Hv.
    + simpl. repeat split; auto.
      * intros _. now apply isValid_Returned.
      * right; lia.
    + specialize (IH (S a) (applyDeterministicFixes f)
        (JS.or_else
           (validationError (validate_with (mermaid_parse env)
                               (applyDeterministicFixes f)))
           "Unknown validation error") Hd).
      destruct (InlineLoop.fixLoop env n (S a) _ _ _) as [r t].
      simpl in *. destruct IH as (H1 & H2 & H3 & H4).
      repeat split; auto. lia.
Qed.

(** The [while] loop reports and handles normalized texts only. *)
Lemma WhileLoop_loop_normalized n : forall k raw,
  normalized (fixedCode (fst (WhileLoop.loop env n k raw))) /\
  Forall normalized (texts (snd (WhileLoop.loop env n k raw))) /\
  (success (fst (WhileLoop.loop env n k raw)) = true ->
   mermaid_parse env (fixedCode (fst (WhileLoop.loop env n k raw)))
     = Returned) /\
  (attempts (fst (WhileLoop.loop env n k raw)) = MAX_FIX_ATTEMPTS \/
   (k <= attempts (fst (WhileLoop.loop env n k raw)) /\
    attempts (fst (WhileLoop.loop env n k raw)) <= k + n)).
Proof.
  induction n as [|n IH]; intros k raw;
    rewrite WhileLoop_loop_step; cbv zeta;
    pose proof (normalized_applyDeterministicFixes raw) as Hd;
    destruct (isValid (validate_with (mermaid_parse env)
                         (applyDeterministicFixes raw))) eqn:Hv;
    try (simpl; repeat split; auto;
         [intros _; now apply isValid_Returned | right; lia]).
  - simpl. repeat split; auto. discriminate.
  - destruct (settlement_of env _ _ (S k)) as [[f|]|message];
      try (simpl; repeat split; auto; [discriminate | right; lia]).
    destruct (negb (JS.truthy f));
      [simpl; repeat split; auto; [discriminate | right; lia]|].
    specialize (IH (S k) f).
    destruct (WhileLoop.loop env n (S k) f) as [r t].
    simpl in *. destruct IH as (H1 & H2 & H3 & H4).
    repeat split; auto. lia.
Qed.

End VariantFacts.

Section VariantEquivalences.

Variable env : environment.

Lemma or_else_default c x y :
  (forall c', mermaid_parse env c' <> ThrewError "") ->
  JS.or_else (validationError (validate_with (mermaid_parse env) c)) x =
  JS.or_else (validationError (validate_with (mermaid_parse env) c)) y \/
  isValid (validate_with (mermaid_parse env) c) = true.
Proof.
  intros Hmsg. unfold validate_with.
  pose proof (Hmsg c) as Hc.
  destruct (mermaid_parse env c) as [|[|? ?]|]; simpl; auto; congruence.
Qed.

Lemma WhileLoop_as_InlineLoop n :
  (forall c, mermaid_parse env c <> ThrewError "") ->
  forall k raw,
  WhileLoop.loop env n k raw =
  let d := applyDeterministicFixes raw in
  if isValid (validate_with (mermaid_parse env) d) then
    ({| success := true; fixedCode := d; error := None; attempts := k |},
     [Validated d])
  else
    let (r, t) :=
      InlineLoop.fixLoop env n (S k) d
        (JS.or_else (validationError (validate_with (mermaid_parse env) d))
           "Unknown syntax error") d in
    (r, Validated d :: t).
Proof.
  intros Hmsg. induction n as [|n IH]; intros k raw;
    rewrite WhileLoop_loop_step; cbv zeta;
    destruct (isValid (validate_with (mermaid_parse env)
                         (applyDeterministicFixes raw))) eqn:Hv;
    try reflexivity.
  rewrite InlineLoop_fixLoop_step. cbv zeta.
  destruct (settlement_of env _ _ (S k)) as [[f|]|message]; try reflexivity.
  destruct (negb (JS.truthy f)); [reflexivity|].
  rewrite IH. cbv zeta.
  destruct (isValid (validate_with (mermaid_parse env)
                       (applyDeterministicFixes f))) eqn:Hf; [reflexivity|].
  destruct (or_else_default (applyDeterministicFixes f)
              "Unknown syntax error" "Unknown validation error" Hmsg)
    as [-> | Hvalid]; [|congruence].
  destruct (InlineLoop.fixLoop env n (S (S k)) _ _ _). reflexivity.
Qed.

Lemma fixLoop_as_InlineLoop n :
  (forall c e k f,
     settlement_of env c e k = Channel.Resolved (Some f) ->
     JS.includes ARROW_ENTITY f = false) ->
  forall a cur err best,
  fixLoop env n a cur err best = InlineLoop.fixLoop env n a cur err best.
Proof.
  intros Hfree. induction n as [|n IH]; intros a cur err best;
    [reflexivity|].
  rewrite fixLoop_step, InlineLoop_fixLoop_step. cbv zeta.
  destruct (settlement_of env cur err a) as [[f|]|message] eqn:Hs;
    try reflexivity.
  rewrite (applyDeterministicFixes_noop f (Hfree _ _ _ _ Hs)).
  destruct (negb (JS.truthy f)); [reflexivity|].
  destruct (isValid (validate_with (mermaid_parse env) f)); [reflexivity|].
  now rewrite IH.
Qed.

End VariantEquivalences.

Lemma always_settles parse fixed c e k :
  settlement_of (Scenario.scripted parse (Scenario.always fixed)) c e k
  = Channel.Resolved (Some fixed).
Proof.
  exact (ChannelFacts.await_response []
           {| Channel.type := "mermaidFixResponse";
              Channel.requestId := Scenario.tag k;
              Channel.success := true;
              Channel.fixedCode := Some fixed;
              Channel.error := None |}
           [] (Scenario.tag k) c e k MAX_FIX_ATTEMPTS
           eq_refl eq_refl eq_refl).
Qed.

(* ===================================================================== *)
(** ** Properties of the other versions of [autoFixSyntax] *)
(* ===================================================================== *)

(** X14. The version of [autoFixSyntax] with the inlined [for] loop keeps
    the normalization that [fixSyntax] lacks: whatever the parser and the
    assistant do, the [fixedCode] it returns is a fixed point of
    [applyDeterministicFixes], every text it validates or sends to the
    assistant is one too, a [success: true] result carries a text the
    parser accepted, and [attempts] is at most [MAX_FIX_ATTEMPTS]. *)
Theorem InlineLoop_autoFixSyntax_is_normalized
    (env : environment) (code : string) :
  let r := fst (InlineLoop.autoFixSyntax env code) in
  let t := snd (InlineLoop.autoFixSyntax env code) in
  applyDeterministicFixes (fixedCode r) = fixedCode r /\
  Forall (fun c => applyDeterministicFixes c = c) (texts t) /\
  (success r = true -> mermaid_parse env (fixedCode r) = Returned) /\
  attempts r <= MAX_FIX_ATTEMPTS.
Proof.
  cbv zeta. rewrite InlineLoop_autoFixSyntax_step. cbv zeta.
  pose proof (normalized_applyDeterministicFixes code) as Hd.
  destruct (isValid (validate_with (mermaid_parse env)
                       (applyDeterministicFixes code))) eqn:Hv.
  - simpl. repeat split; auto.
    + intros _. now apply isValid_Returned.
    + lia.
  - pose proof (InlineLoop_fixLoop_normalized env MAX_FIX_ATTEMPTS 1
      (applyDeterministicFixes code)
      (JS.or_else (validationError (validate_with (mermaid_parse env)
         (applyDeterministicFixes code))) "Unknown syntax error") Hd) as H.
    destruct (InlineLoop.fixLoop env MAX_FIX_ATTEMPTS 1 _ _ _) as [r t].
    simpl in *. destruct H as (H1 & H2 & H3 & H4).
    repeat split; auto. unfold MAX_FIX_ATTEMPTS in *. lia.
Qed.

(** X15. The version of [autoFixSyntax] with the [while (true)] loop keeps
    the same normalization: its [fixedCode] is always a fixed point of
    [applyDeterministicFixes], so is every text it validates or sends, a
    [success: true] result carries a text the parser accepted, and
    [attempts] is at most [MAX_FIX_ATTEMPTS]. *)
Theorem WhileLoop_autoFixSyntax_is_normalized
    (env : environment) (code : string) :
  let r := fst (WhileLoop.autoFixSyntax env code) in
  let t := snd (WhileLoop.autoFixSyntax env code) in
  applyDeterministicFixes (fixedCode r) = fixedCode r /\
  Forall (fun c => applyDeterministicFixes c = c) (texts t) /\
  (success r = true -> mermaid_parse env (fixedCode r) = Returned) /\
  attempts r <= MAX_FIX_ATTEMPTS.
Proof.
  cbv zeta. unfold WhileLoop.autoFixSyntax.
  destruct (WhileLoop_loop_normalized env MAX_FIX_ATTEMPTS 0 code)
    as (H1 & H2 & H3 & H4).
  repeat split; auto. unfold MAX_FIX_ATTEMPTS in *. lia.
Qed.

(** X16. The [while]-loop version and the inlined [for]-loop version of
    [autoFixSyntax] return the same result after the same validations and
    requests, provided the parser never throws an [Error] whose message is
    empty (the two differ in the default text they then use for a later
    validation). *)
Theorem WhileLoop_agrees_with_InlineLoop
    (env : environment) (code : string) :
  (forall c, mermaid_parse env c <> ThrewError "") ->
  WhileLoop.autoFixSyntax env code = InlineLoop.autoFixSyntax env code.
Proof.
  intros Hmsg. unfold WhileLoop.autoFixSyntax.
  rewrite (WhileLoop_as_InlineLoop env MAX_FIX_ATTEMPTS Hmsg 0 code).
  now rewrite InlineLoop_autoFixSyntax_step.
Qed.

Lemma WhileLoop_agrees_with_InlineLoop_witness :
  let env := Scenario.scripted Scenario.rejects (Scenario.once "B --&gt; C") in
  (forall c, mermaid_parse env c <> ThrewError "") /\
  WhileLoop.autoFixSyntax env "A" = InlineLoop.autoFixSyntax env "A" /\
  fixedCode (fst (InlineLoop.autoFixSyntax env "A")) = "B --> C".
Proof.
  intros env.
  assert (Hmsg : forall c, mermaid_parse env c <> ThrewError "")
    by (intros c; discriminate).
  split; [exact Hmsg | split; [|reflexivity]].
  exact (WhileLoop_agrees_with_InlineLoop env "A" Hmsg).
Defined.

(** X17. [autoFixSyntax] with [fixSyntax] and the version with the inlined
    loop return the same result after the same validations and requests
    whenever every text the assistant answers with is free of [--&gt;]:
    the two differ only on answers the deterministic pass would change. *)
Theorem autoFixSyntax_agrees_with_InlineLoop
    (env : environment) (code : string) :
  (forall c e k f,
     settlement_of env c e k = Channel.Resolved (Some f) ->
     JS.includes ARROW_ENTITY f = false) ->
  autoFixSyntax env code = InlineLoop.autoFixSyntax env code.
Proof.
  intros Hfree.
  rewrite autoFixSyntax_step, InlineLoop_autoFixSyntax_step. cbv zeta.
  unfold fixSyntax. now rewrite (fixLoop_as_InlineLoop env _ Hfree).
Qed.

Lemma autoFixSyntax_agrees_with_InlineLoop_witness :
  let env := Scenario.scripted (Scenario.accepts "A --> B")
               (Scenario.always "A --> B") in
  (forall c e k f,
     settlement_of env c e k = Channel.Resolved (Some f) ->
     JS.includes ARROW_ENTITY f = false) /\
  autoFixSyntax env "A -> B" = InlineLoop.autoFixSyntax env "A -> B" /\
  success (fst (autoFixSyntax env "A -> B")) = true.
Proof.
  intros env.
  assert (Hfree : forall c e k f,
            settlement_of env c e k = Channel.Resolved (Some f) ->
            JS.includes ARROW_ENTITY f = false).
  { intros c e k f H. unfold env in H. rewrite always_settles in H.
    now injection H as <-. }
  split; [exact Hfree | split; [|reflexivity]].
  exact (autoFixSyntax_agrees_with_InlineLoop env "A -> B" Hfree).
Defined.

(* ===================================================================== *)
(** ** Facts about the version with tagged replies *)
(* ===================================================================== *)

Module TaggedReplyFacts.
Import TaggedReply.

Lemma tagged_run_app evs1 evs2 st : run (evs1 ++ evs2) st = run evs2 (run evs1 st).
Proof. apply fold_left_app. Qed.

Lemma tagged_run_unrelated evs : forall st,
  forallb (Channel.unrelated (id st)) evs = true -> run evs st = st.
Proof.
  induction evs as [|ev evs IH]; intros st H; [reflexivity|].
  simpl in H. apply andb_true_iff in H as [Hev Hevs].
  assert (Hd : dispatch st ev = st).
  { destruct ev as [m|]; [|discriminate]. simpl in *.
    unfold messageListener.
    destruct ((Channel.type m =? "mermaidFixResponse")
              && (Channel.requestId m =? id st)); [discriminate|].
    now destruct (listening st). }
  simpl. rewrite Hd. now apply IH.
Qed.

Lemma tagged_promise_stable_dispatch st ev r :
  promise st = Some r -> promise (dispatch st ev) = Some r.
Proof.
  intros Hp. destruct ev as [m|]; simpl.
  - destruct (listening st); [|exact Hp]. unfold messageListener.
    destruct (_ && _); [|exact Hp].
    destruct (Channel.success m); simpl; now rewrite Hp.
  - destruct (armed st); [|exact Hp]. simpl. now rewrite Hp.
Qed.

Lemma tagged_promise_stable_run evs : forall st r,
  promise st = Some r -> promise (run evs st) = Some r.
Proof.
  induction evs as [|ev evs IH]; intros st r Hp; [exact Hp|].
  simpl. apply IH. now apply tagged_promise_stable_dispatch.
Qed.

Section LoopFacts.

Variable env : environment.

Lemma loop_step n k raw :
  loop env n k (Some raw) =
  let d := applyDeterministicFixes raw in
  if isValid (validate_with (mermaid_parse env) d) then
    (Fulfilled {| success := true; fixedCode := d; error := None;
                  attempts := k |}, [Validated d])
  else
    let e := JS.or_else (validationError (validate_with (mermaid_parse env) d))
               "Unknown syntax error" in
    match n with
    | 0 =>
        (Fulfilled
           {| success := false; fixedCode := d;
              error := Some ("Failed to fix syntax after "
                             ++ JS.digits MAX_FIX_ATTEMPTS
                             ++ " attempts. Last error: " ++ e);
              attempts := k |}, [Validated d])
    | S n' =>
        match reply_of env d e (S k) with
        | RequestError message =>
            (Fulfilled {| success := false; fixedCode := d;
                          error := Some message; attempts := S k |},
             [Validated d; Requested d e (S k)])
        | FixedCode value =>
            let (r, t) := loop env n' (S k) value in
            (r, Validated d :: Requested d e (S k) :: t)
        end
    end.
Proof.
  destruct n as [|n']; cbn [loop];
    unfold requestLLMFix, bind, ret, validateSyntax; cbv zeta;
    destruct (isValid (validate_with (mermaid_parse env)
                         (applyDeterministicFixes raw))); try reflexivity.
  destruct (reply_of env _ _ (S k)) as [value|message]; [|reflexivity].
  destruct (loop env n' (S k) value). reflexivity.
Qed.

Lemma loop_None n k : loop env n k None = (ThrewTypeError, []).
Proof. destruct n; reflexivity. Qed.

Lemma loop_sound n : forall k raw dflt,
  TaggedReply_sound env k n dflt (fst (loop env n k (Some raw)))
    (snd (loop env n k (Some raw)))
  /\ Forall normalized (texts (snd (loop env n k (Some raw)))).
Proof.
  unfold TaggedReply_sound, requests.
  induction n as [|n IH]; intros k raw dflt;
    rewrite loop_step; cbv zeta;
    pose proof (normalized_applyDeterministicFixes raw) as Hd;
    destruct (isValid (validate_with (mermaid_parse env)
                         (applyDeterministicFixes raw))) eqn:Hv;
    try (simpl; repeat split; auto; try lia;
         first [discriminate | intros _; now apply isValid_Returned]).
  destruct (reply_of env _ _ (S k)) as [[f|]|message].
  - specialize (IH (S k) f (Some (applyDeterministicFixes raw))).
    destruct (loop env n (S k) (Some f)) as [[r|] t]; simpl in *.
    + destruct IH as ((H1 & H2 & H3 & H4 & H5) & H6).
      repeat split; auto; lia.
    + destruct IH as (_ & H6). repeat split; auto.
  - rewrite loop_None. simpl. repeat split; auto.
  - simpl. repeat split; auto; try lia; discriminate.
Qed.

(** The sequence throws only right after a request that was answered with
    [success] and no text. *)
Lemma loop_throws n : forall k raw,
  fst (loop env n k (Some raw)) = ThrewTypeError ->
  exists pre c e j,
    snd (loop env n k (Some raw)) = (pre ++ [Requested c e j])%list /\
    reply_of env c e j = FixedCode None.
Proof.
  induction n as [|n IH]; intros k raw;
    rewrite loop_step; cbv zeta;
    destruct (isValid (validate_with (mermaid_parse env)
                         (applyDeterministicFixes raw)));
    try (simpl; discriminate).
  destruct (reply_of env _ _ (S k)) as [[f|]|message] eqn:Hr.
  - specialize (IH (S k) f).
    destruct (loop env n (S k) (Some f)) as [c t]. simpl in *.
    intros Hc. destruct (IH Hc) as (pre & c' & e & j & -> & Hrep).
    exists (Validated (applyDeterministicFixes raw)
            :: Requested (applyDeterministicFixes raw)
                 (JS.or_else
                    (validationError
                       (validate_with (mermaid_parse env)
                          (applyDeterministicFixes raw)))
                    "Unknown syntax error") (S k) :: pre), c', e, j.
    now split.
  - rewrite loop_None. simpl. intros _.
    exists [Validated (applyDeterministicFixes raw)].
    do 3 eexists. split; [reflexivity | exact Hr].
  - discriminate.
Qed.

(** Every text the assistant answers with, empty or not, is normalized
    and validated next. *)
Lemma loop_adopts n : forall k raw pre c e j post f,
  snd (loop env n k (Some raw)) = (pre ++ Requested c e j :: post)%list ->
  reply_of env c e j = FixedCode (Some f) ->
  exists post', post = Validated (applyDeterministicFixes f) :: post'.
Proof.
  induction n as [|n IH]; intros k raw pre c e j post f;
    rewrite loop_step; cbv zeta;
    destruct (isValid (validate_with (mermaid_parse env)
                         (applyDeterministicFixes raw)));
    try (simpl; intros Ht; destruct pre as [|? [|? ?]]; discriminate).
  destruct (reply_of env _ _ (S k)) as [[g|]|message] eqn:Hr.
  - destruct (loop env n (S k) (Some g)) as [r t] eqn:Hloop. simpl.
    intros Ht Hrep.
    destruct pre as [|x pre]; [discriminate|]. injection Ht as _ Ht.
    destruct pre as [|y pre].
    + injection Ht as <- <- <- <-. rewrite Hr in Hrep.
      injection Hrep as ->.
      pose proof (f_equal snd Hloop) as Hsnd. rewrite loop_step in Hsnd.
      cbv zeta in Hsnd. simpl in Hsnd.
      destruct (isValid (validate_with (mermaid_parse env)
                           (applyDeterministicFixes f))).
      * simpl in Hsnd. subst t. eauto.
      * destruct n as [|n'].
        -- simpl in Hsnd. subst t. eauto.
        -- destruct (reply_of env _ _ (S (S k))) as [value|message].
           ++ destruct (loop env n' (S (S k)) value). simpl in Hsnd.
              subst t. eauto.
           ++ simpl in Hsnd. subst t. eauto.
    + injection Ht as _ Ht.
      apply (IH (S k) g pre c e j post f); [|exact Hrep].
      now rewrite Hloop.
  - rewrite loop_None. simpl. intros Ht Hrep.
    destruct pre as [|x [|y pre]]; simpl in Ht; try discriminate.
    + injection Ht as _ <- <- <- _. congruence.
    + destruct pre; discriminate.
  - simpl. intros Ht Hrep.
    destruct pre as [|x [|y pre]]; simpl in Ht; try discriminate.
    + injection Ht as _ <- <- <- _. congruence.
    + destruct pre; discriminate.
Qed.

End LoopFacts.

End TaggedReplyFacts.

(* ===================================================================== *)
(** ** Properties of the version with tagged replies *)
(* ===================================================================== *)

(** X18. In the version whose [requestLLMFix] resolves with a tagged
    object, the promise resolves as follows.  While only messages of
    another type or for another request have arrived, the deadline
    resolves it with [{ requestError: LLM fix request timed out }]; the
    first response addressed to the call resolves it with its [fixedCode]
    when it carries [success], and otherwise with its [error] as
    [requestError], [LLM fix failed] when that is missing or empty;
    whatever arrives later changes nothing. *)
Theorem TaggedReply_requestLLMFix_resolves
    (requestId : string) (before : list Channel.event) :
  forallb (Channel.unrelated requestId) before = true ->
  TaggedReply.await before (TaggedReply.start requestId)
    = TaggedReply.RequestError "LLM fix request timed out" /\
  (forall m after,
     Channel.type m = "mermaidFixResponse" ->
     Channel.requestId m = requestId ->
     TaggedReply.await (before ++ Channel.Incoming m :: after)
       (TaggedReply.start requestId)
     = if Channel.success m
       then TaggedReply.FixedCode (Channel.fixedCode m)
       else TaggedReply.RequestError
              (JS.or_else (Channel.error m) "LLM fix failed")).
Proof.
  intros Hb. split.
  - unfold TaggedReply.await.
    rewrite TaggedReplyFacts.tagged_run_app,
      (TaggedReplyFacts.tagged_run_unrelated before) by exact Hb.
    reflexivity.
  - intros m after Ht Hid. unfold TaggedReply.await.
    rewrite <- app_assoc, TaggedReplyFacts.tagged_run_app,
      (TaggedReplyFacts.tagged_run_unrelated before) by exact Hb.
    simpl app. unfold TaggedReply.run. cbn [fold_left].
    fold (TaggedReply.run (after ++ [Channel.TimerElapsed])).
    erewrite TaggedReplyFacts.tagged_promise_stable_run; [reflexivity|].
    simpl. unfold TaggedReply.messageListener. simpl.
    rewrite Ht, Hid, !String.eqb_refl. simpl.
    now destruct (Channel.success m).
Qed.

Lemma TaggedReply_requestLLMFix_resolves_witness :
  forallb (Channel.unrelated (Scenario.tag 1))
    [Scenario.response 8 true (Some "x") None] = true /\
  TaggedReply.await [Scenario.response 8 true (Some "x") None]
    (TaggedReply.start (Scenario.tag 1))
    = TaggedReply.RequestError "LLM fix request timed out".
Proof.
  split; [reflexivity|].
  exact (proj1 (TaggedReply_requestLLMFix_resolves (Scenario.tag 1)
                  [Scenario.response 8 true (Some "x") None] eq_refl)).
Defined.

(** X19. Every result that this version of [autoFixSyntax] returns,
    successful or not, reports a [fixedCode] that is a fixed point of
    [applyDeterministicFixes] and is the last text it validated; its
    [attempts] is the number of requests it sent, at most
    [MAX_FIX_ATTEMPTS]; and a [success: true] result carries a text the
    parser accepted.  Every text it validates or sends is a fixed point
    of the pass. *)
Theorem TaggedReply_autoFixSyntax_is_sound
    (env : environment) (code : string) (r : MermaidFixResult) :
  fst (TaggedReply.autoFixSyntax env code) = TaggedReply.Fulfilled r ->
  let t := snd (TaggedReply.autoFixSyntax env code) in
  applyDeterministicFixes (fixedCode r) = fixedCode r /\
  last_validated t None = Some (fixedCode r) /\
  attempts r = requests t /\
  attempts r <= MAX_FIX_ATTEMPTS /\
  (success r = true -> mermaid_parse env (fixedCode r) = Returned) /\
  Forall (fun c => applyDeterministicFixes c = c) (texts t).
Proof.
  intros Hr t. subst t. unfold TaggedReply.autoFixSyntax in *.
  destruct (TaggedReplyFacts.loop_sound env MAX_FIX_ATTEMPTS 0 code None)
    as [Hs Hall].
  rewrite Hr in Hs. simpl in Hs. destruct Hs as (H1 & H2 & H3 & H4 & H5).
  repeat split; auto. lia.
Qed.

Lemma TaggedReply_autoFixSyntax_is_sound_witness :
  let env := Scenario.scripted (Scenario.accepts "A --> B")
               (Scenario.always "A --&gt; B") in
  fst (TaggedReply.autoFixSyntax env "A -> B")
    = TaggedReply.Fulfilled
        {| success := true; fixedCode := "A --> B"; error := None;
           attempts := 1 |} /\
  applyDeterministicFixes "A --> B" = "A --> B".
Proof.
  intros env.
  assert (Hr : fst (TaggedReply.autoFixSyntax env "A -> B")
    = TaggedReply.Fulfilled
        {| success := true; fixedCode := "A --> B"; error := None;
           attempts := 1 |}) by reflexivity.
  split; [exact Hr|].
  exact (proj1 (TaggedReply_autoFixSyntax_is_sound env "A -> B" _ Hr)).
Defined.

(** X20. This version of [autoFixSyntax] throws only in one way: right
    after a request that was answered with [success] and a [fixedCode]
    that is [null] or [undefined].  When no request is answered that way,
    it returns a result. *)
Theorem TaggedReply_autoFixSyntax_throws_only_without_fixedCode
    (env : environment) (code : string) :
  (fst (TaggedReply.autoFixSyntax env code) = TaggedReply.ThrewTypeError ->
   exists pre c e k,
     snd (TaggedReply.autoFixSyntax env code)
       = (pre ++ [Requested c e k])%list /\
     TaggedReply.reply_of env c e k = TaggedReply.FixedCode None) /\
  ((forall c e k,
      TaggedReply.reply_of env c e k <> TaggedReply.FixedCode None) ->
   exists r,
     fst (TaggedReply.autoFixSyntax env code) = TaggedReply.Fulfilled r).
Proof.
  unfold TaggedReply.autoFixSyntax.
  pose proof (TaggedReplyFacts.loop_throws env MAX_FIX_ATTEMPTS 0 code) as H.
  split; [exact H|].
  intros Hno.
  destruct (fst (TaggedReply.loop env MAX_FIX_ATTEMPTS 0 (Some code)))
    as [r|]; [now exists r|].
  destruct (H eq_refl) as (pre & c & e & k & _ & Hrep).
  now destruct (Hno c e k).
Qed.

Lemma TaggedReply_autoFixSyntax_throws_only_without_fixedCode_witness :
  let env := Scenario.scripted Scenario.rejects Scenario.no_fix in
  fst (TaggedReply.autoFixSyntax env "A") = TaggedReply.ThrewTypeError /\
  exists pre c e k,
    snd (TaggedReply.autoFixSyntax env "A") = (pre ++ [Requested c e k])%list /\
    TaggedReply.reply_of env c e k = TaggedReply.FixedCode None.
Proof.
  intros env.
  assert (Hc : fst (TaggedReply.autoFixSyntax env "A")
                 = TaggedReply.ThrewTypeError) by reflexivity.
  split; [exact Hc|].
  exact (proj1 (TaggedReply_autoFixSyntax_throws_only_without_fixedCode
                  env "A") Hc).
Defined.

(** X21. This version of [autoFixSyntax] takes every text the assistant
    answers with as its next candidate, the empty string included: the
    request is followed by the validation of the deterministically fixed
    answer. *)
Theorem TaggedReply_autoFixSyntax_adopts_every_answer
    (env : environment) (code : string)
    (pre post : list io_event) (c e f : string) (k : nat) :
  snd (TaggedReply.autoFixSyntax env code)
    = (pre ++ Requested c e k :: post)%list ->
  TaggedReply.reply_of env c e k = TaggedReply.FixedCode (Some f) ->
  exists post', post = Validated (applyDeterministicFixes f) :: post'.
Proof.
  unfold TaggedReply.autoFixSyntax.
  apply TaggedReplyFacts.loop_adopts.
Qed.

Lemma TaggedReply_autoFixSyntax_adopts_every_answer_witness :
  let env := Scenario.scripted Scenario.rejects Scenario.empty_fix in
  snd (TaggedReply.autoFixSyntax env "A")
    = ([Validated "A"] ++ Requested "A" "Parse error" 1
         :: [Validated ""; Requested "" "Parse error" 2;
             Validated ""])%list /\
  TaggedReply.reply_of env "A" "Parse error" 1
    = TaggedReply.FixedCode (Some "") /\
  exists post',
    [Validated ""; Requested "" "Parse error" 2; Validated ""]
    = Validated (applyDeterministicFixes "") :: post'.
Proof.
  intros env.
  assert (Ht : snd (TaggedReply.autoFixSyntax env "A")
    = ([Validated "A"] ++ Requested "A" "Parse error" 1
         :: [Validated ""; Requested "" "Parse error" 2;
             Validated ""])%list) by reflexivity.
  assert (Hr : TaggedReply.reply_of env "A" "Parse error" 1
                 = TaggedReply.FixedCode (Some "")) by reflexivity.
  split; [exact Ht | split; [exact Hr|]].
  exact (TaggedReply_autoFixSyntax_adopts_every_answer env "A" _ _ _ _ _ _
           Ht Hr).
Defined.

(* ===================================================================== *)
(** ** The earliest version *)
(* ===================================================================== *)

Section LegacyFacts.

Variable env : environment.

Lemma Legacy_fixLoop_sound n : forall a cur err d,
  Legacy_sound env d (fst (Legacy.fixLoop env n a cur err))
    (snd (Legacy.fixLoop env n a cur err)).
Proof.
  unfold Legacy_sound.
  induction n as [|n IH]; intros a cur err d.
  - simpl. split; [discriminate | intros _; split; [reflexivity | discriminate]].
  - cbn [Legacy.fixLoop].
    unfold requestLLMFix, bind, ret, Legacy.validateSyntax. cbv zeta.
    destruct (settlement_of env cur err a) as [[f|]|message]; simpl;
      try (split; [discriminate
                  | intros _; split; [reflexivity | discriminate]]).
    destruct (JS.truthy f); simpl;
      [|split; [discriminate
               | intros _; split; [reflexivity | discriminate]]].
    destruct (isValid (validate_with (mermaid_parse env)
                         (Legacy.applyManualFixes f))) eqn:Hv; simpl.
    + split; [|discriminate]. intros _. exists f.
      repeat split. now apply isValid_Returned.
    + specialize (IH (S a) f
        (JS.or_else
           (validationError
              (validate_with (mermaid_parse env) (Legacy.applyManualFixes f)))
           "Unknown validation error") (Some f)).
      destruct (Legacy.fixLoop env n (S a) f _) as [r t]. exact IH.
Qed.

End LegacyFacts.

(** X22. In the earliest version, [autoFixSyntax] reports a [fixedCode]
    exactly when it succeeds.  On success the text is the last one given
    to [validateSyntax], and what the parser accepted is that text after
    [applyManualFixes]; on failure [fixedCode] is left out and an error is
    set. *)
Theorem Legacy_autoFixSyntax_reports_code_on_success_only
    (env : environment) (code : string) :
  let r := fst (Legacy.autoFixSyntax env code) in
  let t := snd (Legacy.autoFixSyntax env code) in
  (Legacy.success r = true ->
   exists f,
     Legacy.fixedCode r = Some f /\
     last_validated t None = Some f /\
     mermaid_parse env (Legacy.applyManualFixes f) = Returned /\
     Legacy.error r = None) /\
  (Legacy.success r = false ->
   Legacy.fixedCode r = None /\ Legacy.error r <> None).
Proof.
  cbv zeta. unfold Legacy.autoFixSyntax, bind, ret, Legacy.validateSyntax.
  cbv zeta.
  destruct (isValid (validate_with (mermaid_parse env)
                       (Legacy.applyManualFixes
                          (Legacy.applyManualFixes code)))) eqn:Hv.
  - simpl. split; [|discriminate]. intros _.
    exists (Legacy.applyManualFixes code).
    repeat split. now apply isValid_Returned.
  - unfold Legacy.fixSyntax.
    pose proof (Legacy_fixLoop_sound env MAX_FIX_ATTEMPTS 1
      (Legacy.applyManualFixes code)
      (JS.or_else
         (validationError
            (validate_with (mermaid_parse env)
               (Legacy.applyManualFixes (Legacy.applyManualFixes code))))
         "Unknown syntax error")
      (Some (Legacy.applyManualFixes code))) as H.
    unfold Legacy_sound in H.
    destruct (Legacy.fixLoop env MAX_FIX_ATTEMPTS 1 _ _) as [r t].
    exact H.
Qed.

Lemma Legacy_autoFixSyntax_reports_code_on_success_only_witness :
  let env := Scenario.scripted (Scenario.accepts "A --> B")
               (Scenario.always "A --&gt; B") in
  Legacy.success (fst (Legacy.autoFixSyntax env "A -> B")) = true /\
  exists f,
    Legacy.fixedCode (fst (Legacy.autoFixSyntax env "A -> B")) = Some f /\
    last_validated (snd (Legacy.autoFixSyntax env "A -> B")) None = Some f /\
    mermaid_parse env (Legacy.applyManualFixes f) = Returned /\
    Legacy.error (fst (Legacy.autoFixSyntax env "A -> B")) = None.
Proof.
  intros env.
  assert (Hs : Legacy.success (fst (Legacy.autoFixSyntax env "A -> B")) = true)
    by reflexivity.
  split; [exact Hs|].
  exact (proj1 (Legacy_autoFixSyntax_reports_code_on_success_only
                  env "A -> B") Hs).
Defined.
